(** * The email composition workflow of [frontend/src/app.jsx]

    A shallow embedding of the [EmailGenerator] component: its React
    state, the recipient-list mutators, the two asynchronous handlers
    [generateEmail] and [sendEmail], the notification timer, and the
    guards the rendered markup puts on the handlers. *)

From Stdlib Require Import String Ascii NArith DecimalString.
From stdpp Require Import base list numbers.

Local Open Scope N_scope.

(** ** JavaScript strings *)

(** A JavaScript string is a sequence of UTF-16 code units. *)
Abbreviation jsstring := (list N).

(** A literal of the source, written in ASCII. *)
Definition js (s : string) : jsstring :=
  N_of_ascii <$> list_ascii_of_string s.

(** Template-literal conversion of a non-negative integer
    ([`${response.status}`], [`${data.sent_to.length}`]). *)
Definition number_to_string (n : nat) : jsstring :=
  js (NilEmpty.string_of_uint (Nat.to_uint n)).

(** The code units [String.prototype.trim] strips: ECMAScript's WhiteSpace
    (TAB, VT, FF, ZWNBSP and the Unicode space separators) and
    LineTerminator (LF, CR, LS, PS) productions. *)
Definition is_white_space (c : N) : bool :=
  (c =? 0x0009) || (c =? 0x000B) || (c =? 0x000C) || (c =? 0xFEFF)
  || (c =? 0x0020) || (c =? 0x00A0) || (c =? 0x1680)
  || ((0x2000 <=? c) && (c <=? 0x200A))
  || (c =? 0x202F) || (c =? 0x205F) || (c =? 0x3000)
  || (c =? 0x000A) || (c =? 0x000D) || (c =? 0x2028) || (c =? 0x2029).

Fixpoint trimStart (s : jsstring) : jsstring :=
  match s with
  | [] => []
  | c :: s' => if is_white_space c then trimStart s' else s
  end.

Definition trimEnd (s : jsstring) : jsstring :=
  reverse (trimStart (reverse s)).

(** [s.trim()] *)
Definition trim (s : jsstring) : jsstring := trimEnd (trimStart s).

(** ToBoolean on a string: only the empty string is falsy. *)
Definition truthy (s : jsstring) : bool :=
  match s with [] => false | _ :: _ => true end.

(** [a || b] on strings. *)
Definition or_else (a b : jsstring) : jsstring :=
  if truthy a then a else b.

(** ** JavaScript arrays of strings *)

(** What an array element can hold here: a string, or [undefined]. *)
Inductive value :=
| VUndefined
| VString (s : jsstring).

(** An array is a list of slots; [None] is an empty slot (a hole), which
    [filter] and [map] skip, which reads as [undefined], and which the
    spread syntax turns into a stored [undefined]. *)
Abbreviation jsarray := (list (option value)).

(** [a[i]] at an array index [i]; properties under other keys are not
    part of an array here. *)
Definition array_get (a : jsarray) (i : nat) : value :=
  match a !! i with
  | Some (Some v) => v
  | _ => VUndefined
  end.

(** [[...a]] *)
Definition spread (a : jsarray) : jsarray :=
  (λ o, Some (default VUndefined o)) <$> a.

(** An integer key is an array index when it is below [2^32 - 1]; the
    length of an array never exceeds that bound, so a key below the
    length is one. *)
Definition is_array_index (i : nat) : bool :=
  N.of_nat i <? 4294967295.

(** [a[i] = v]: in range the slot is overwritten; past the end, at an
    array index, the array grows to length [i + 1], the slots in between
    staying empty; at a larger key the write only adds a named property,
    which [length], the spread syntax, [map] and [filter] do not see: the
    slots stay as they are. *)
Definition array_set (a : jsarray) (i : nat) (v : value) : jsarray :=
  if decide (i < length a)%nat then <[i := Some v]> a
  else if is_array_index i then
    a ++ replicate (i - length a) None ++ [Some v]
  else a.

(** The outcome of evaluating an expression that may throw. *)
Inductive exn := TypeError.

Inductive completion (A : Type) :=
| Normal (a : A)
| Throw (e : exn).
Arguments Normal {A} a.
Arguments Throw {A} e.

(** [a.filter(cb)], with [k] the index of the head of [a]: empty slots are
    not visited, the callback sees the element and its index, and the
    result is a fresh array without holes. *)
Fixpoint array_filter (cb : value → nat → completion bool) (k : nat)
    (a : jsarray) : completion (list value) :=
  match a with
  | [] => Normal []
  | None :: a' => array_filter cb (S k) a'
  | Some v :: a' =>
      match cb v k with
      | Throw e => Throw e
      | Normal keep =>
          match array_filter cb (S k) a' with
          | Throw e => Throw e
          | Normal r => Normal (if keep then v :: r else r)
          end
      end
  end.

Definition dense (l : list value) : jsarray := Some <$> l.

(** [email => email.trim()]: a method call on [undefined] throws. *)
Definition trim_callback (email : value) (_ : nat) : completion bool :=
  match email with
  | VUndefined => Throw TypeError
  | VString s => Normal (truthy (trim s))
  end.

(** [(_, i) => i !== index] *)
Definition other_index_callback (index : nat) (_ : value) (i : nat)
  : completion bool :=
  Normal (negb (i =? index)%nat).

(** ** Component state *)

(** The values [activeTab] takes: ['generate'], ['preview'], ['send']. *)
Inductive Tab := TabGenerate | TabPreview | TabSend.

Inductive NotificationType := success | error.

Record Notification := mkNotification {
  message : jsstring;
  type : NotificationType
}.

(** The object the generation endpoint answers with and that
    [setGeneratedEmail] stores. *)
Record Email := mkEmail {
  subject : jsstring;
  content : jsstring
}.

(** [smtpPort] holds [587] or the result of [parseInt], which is an
    integer or [NaN]. *)
Inductive jsnumber := NaN | Int (z : Z).

Record FormData := mkFormData {
  prompt : jsstring;
  groqApiKey : jsstring;
  recipients : jsarray;
  senderEmail : jsstring;
  senderPassword : jsstring;
  smtpServer : jsstring;
  smtpPort : jsnumber
}.

(** The two [fetch] calls of the component, with the fields of their JSON
    bodies. *)
Inductive request :=
| PostGenerateEmail (prompt groq_api_key : jsstring)
| PostSendEmailSmtp (recipients : list value) (subject content : jsstring)
    (sender_email sender_password smtp_server : jsstring)
    (smtp_port : jsnumber).

(** The component's five state variables, followed by what its effects act
    on: a clock in milliseconds, the due times of the pending
    [setTimeout(() => setNotification(null), 5000)] callbacks, every
    request issued so far, the requests whose promise has not settled yet,
    the messages written by [console.error], and the exceptions that
    escaped a handler. *)
Record World := mkWorld {
  activeTab : Tab;
  formData : FormData;
  generatedEmail : option Email;
  loading : bool;
  notification : option Notification;
  clock : nat;
  timers : list nat;
  fetched : list request;
  awaiting : list request;
  console : list (jsstring * jsstring);
  uncaught : list exn
}.

Definition initialFormData : FormData :=
  mkFormData [] [] [Some (VString [])] [] [] (js "smtp.gmail.com") (Int 587).

Definition initialWorld : World :=
  mkWorld TabGenerate initialFormData None false None 0 [] [] [] [] [].

(** *** State setters *)

Definition setActiveTab (t : Tab) (w : World) : World :=
  mkWorld t (formData w) (generatedEmail w) (loading w) (notification w)
    (clock w) (timers w) (fetched w) (awaiting w) (console w) (uncaught w).

(** [setFormData(prev => f(prev))] *)
Definition setFormData (f : FormData → FormData) (w : World) : World :=
  mkWorld (activeTab w) (f (formData w)) (generatedEmail w) (loading w)
    (notification w) (clock w) (timers w) (fetched w) (awaiting w)
    (console w) (uncaught w).

Definition setGeneratedEmail (g : option Email) (w : World) : World :=
  mkWorld (activeTab w) (formData w) g (loading w) (notification w)
    (clock w) (timers w) (fetched w) (awaiting w) (console w) (uncaught w).

Definition setLoading (b : bool) (w : World) : World :=
  mkWorld (activeTab w) (formData w) (generatedEmail w) b (notification w)
    (clock w) (timers w) (fetched w) (awaiting w) (console w) (uncaught w).

Definition setNotification (n : option Notification) (w : World) : World :=
  mkWorld (activeTab w) (formData w) (generatedEmail w) (loading w) n
    (clock w) (timers w) (fetched w) (awaiting w) (console w) (uncaught w).

(** *** Effects *)

(** [setTimeout(() => setNotification(null), delay)]: one more pending
    callback; nothing cancels the ones already pending. *)
Definition setTimeout (delay : nat) (w : World) : World :=
  mkWorld (activeTab w) (formData w) (generatedEmail w) (loading w)
    (notification w) (clock w) (timers w ++ [(clock w + delay)%nat])
    (fetched w) (awaiting w) (console w) (uncaught w).

(** [fetch(...)]: the request goes out and its promise is pending. *)
Definition fetch (r : request) (w : World) : World :=
  mkWorld (activeTab w) (formData w) (generatedEmail w) (loading w)
    (notification w) (clock w) (timers w) (fetched w ++ [r])
    (awaiting w ++ [r]) (console w) (uncaught w).

(** The promise of the [k]-th pending request settles. *)
Definition settle (k : nat) (w : World) : World :=
  mkWorld (activeTab w) (formData w) (generatedEmail w) (loading w)
    (notification w) (clock w) (timers w) (fetched w)
    (delete k (awaiting w)) (console w) (uncaught w).

(** [console.error(label, error)] *)
Definition console_error (label msg : jsstring) (w : World) : World :=
  mkWorld (activeTab w) (formData w) (generatedEmail w) (loading w)
    (notification w) (clock w) (timers w) (fetched w) (awaiting w)
    (console w ++ [(label, msg)]) (uncaught w).

(** An exception leaves an [async] handler: its promise rejects and no
    state is touched. *)
Definition reject (e : exn) (w : World) : World :=
  mkWorld (activeTab w) (formData w) (generatedEmail w) (loading w)
    (notification w) (clock w) (timers w) (fetched w) (awaiting w)
    (console w) (uncaught w ++ [e]).

(** Statements run in sequence. *)
Notation "w |> f" := (f w) (at level 45, left associativity, only parsing).

(** ** Handlers *)

Definition showNotification (message : jsstring) (type : NotificationType)
    (w : World) : World :=
  w |> setNotification (Some (mkNotification message type))
    |> setTimeout 5000.

(** [handleInputChange(field, value)], one constructor per field the markup
    passes. *)
Inductive field_change :=
| Field_prompt (v : jsstring)
| Field_groqApiKey (v : jsstring)
| Field_senderEmail (v : jsstring)
| Field_senderPassword (v : jsstring)
| Field_smtpServer (v : jsstring)
| Field_smtpPort (n : jsnumber).

Definition with_field (c : field_change) (prev : FormData) : FormData :=
  match c with
  | Field_prompt v =>
      mkFormData v (groqApiKey prev) (recipients prev) (senderEmail prev)
        (senderPassword prev) (smtpServer prev) (smtpPort prev)
  | Field_groqApiKey v =>
      mkFormData (prompt prev) v (recipients prev) (senderEmail prev)
        (senderPassword prev) (smtpServer prev) (smtpPort prev)
  | Field_senderEmail v =>
      mkFormData (prompt prev) (groqApiKey prev) (recipients prev) v
        (senderPassword prev) (smtpServer prev) (smtpPort prev)
  | Field_senderPassword v =>
      mkFormData (prompt prev) (groqApiKey prev) (recipients prev)
        (senderEmail prev) v (smtpServer prev) (smtpPort prev)
  | Field_smtpServer v =>
      mkFormData (prompt prev) (groqApiKey prev) (recipients prev)
        (senderEmail prev) (senderPassword prev) v (smtpPort prev)
  | Field_smtpPort n =>
      mkFormData (prompt prev) (groqApiKey prev) (recipients prev)
        (senderEmail prev) (senderPassword prev) (smtpServer prev) n
  end.

Definition handleInputChange (c : field_change) (w : World) : World :=
  w |> setFormData (with_field c).

(** [{ ...prev, recipients: r }] *)
Definition with_recipients (r : jsarray) (prev : FormData) : FormData :=
  mkFormData (prompt prev) (groqApiKey prev) r (senderEmail prev)
    (senderPassword prev) (smtpServer prev) (smtpPort prev).

Definition handleRecipientChange (index : nat) (v : jsstring) (w : World)
  : World :=
  let newRecipients :=
    array_set (spread (recipients (formData w))) index (VString v) in
  w |> setFormData (with_recipients newRecipients).

Definition addRecipient (w : World) : World :=
  w |> setFormData
         (λ prev, with_recipients
                    (spread (recipients prev) ++ [Some (VString [])]) prev).

Definition removeRecipient (index : nat) (w : World) : World :=
  if decide (1 < length (recipients (formData w)))%nat then
    match array_filter (other_index_callback index) 0
            (recipients (formData w)) with
    | Normal newRecipients =>
        w |> setFormData (with_recipients (dense newRecipients))
    | Throw e => w |> reject e
    end
  else w.

(** *** Responses *)

(** [await response.json()]: the body is not JSON and the promise rejects
    with a [SyntaxError] carrying the engine's message, or it parses to the
    object the endpoint's contract describes. *)
Inductive parsed (A : Type) :=
| NotJson (message : jsstring)
| Json (a : A).
Arguments NotJson {A} message.
Arguments Json {A} a.

(** How [fetch] on [/api/generate-email] settles: the promise rejects
    (network failure), or a response arrives with [response.ok] true and a
    body, or with [response.ok] false and a status. *)
Inductive generate_response :=
| GenerateRejected (message : jsstring)
| GenerateOk (body : parsed Email)
| GenerateNotOk (status : nat).

(** How [fetch] on [/api/send-email-smtp] settles; an ok body carries
    [sent_to], a body of a failure carries [detail] or lacks it. *)
Inductive send_response :=
| SendRejected (message : jsstring)
| SendOk (body : parsed (list jsstring))
| SendNotOk (status : nat) (body : parsed (option jsstring)).

(** *** generateEmail *)

(** Up to the [await fetch(...)]. *)
Definition generateEmail (w : World) : World :=
  if negb (truthy (trim (prompt (formData w))))
     || negb (truthy (trim (groqApiKey (formData w))))
  then
    w |> showNotification
           (js "Please provide both a prompt and Groq API key") error
  else
    w |> setLoading true
      |> fetch (PostGenerateEmail (prompt (formData w))
                  (groqApiKey (formData w))).

(** The [catch] block. *)
Definition generateEmail_catch (error_message : jsstring) (w : World)
  : World :=
  w |> console_error (js "Error generating email:") error_message
    |> showNotification
         (js "Failed to generate email. Please check your API key and try again.")
         error.

(** From the [await] on: the rest of [try], then [catch], then [finally]. *)
Definition generateEmail_resume (r : generate_response) (w : World)
  : World :=
  match r with
  | GenerateRejected m => w |> generateEmail_catch m
  | GenerateNotOk status =>
      w |> generateEmail_catch
             (js "HTTP error! status: " ++ number_to_string status)
  | GenerateOk (NotJson m) => w |> generateEmail_catch m
  | GenerateOk (Json data) =>
      w |> setGeneratedEmail (Some data)
        |> setActiveTab TabPreview
        |> showNotification (js "Email generated successfully!") success
  end
  |> setLoading false.

(** *** sendEmail *)

(** Up to the [await fetch(...)]. *)
Definition sendEmail (w : World) : World :=
  match generatedEmail w with
  | None => w
  | Some email =>
      match array_filter trim_callback 0 (recipients (formData w)) with
      | Throw e => w |> reject e
      | Normal validRecipients =>
          if (length validRecipients =? 0)%nat then
            w |> showNotification
                   (js "Please add at least one recipient email") error
          else if negb (truthy (senderEmail (formData w)))
                  || negb (truthy (senderPassword (formData w)))
          then
            w |> showNotification
                   (js "Please provide sender email and password") error
          else
            w |> setLoading true
              |> fetch (PostSendEmailSmtp validRecipients
                          (subject email) (content email)
                          (senderEmail (formData w))
                          (senderPassword (formData w))
                          (smtpServer (formData w))
                          (smtpPort (formData w)))
      end
  end.

(** The [catch] block. *)
Definition sendEmail_catch (error_message : jsstring) (w : World) : World :=
  w |> console_error (js "Error sending email:") error_message
    |> showNotification (or_else error_message (js "Failed to send email"))
         error.

(** [errorData.detail || 'Failed to send email'] *)
Definition detail_or_default (detail : option jsstring) : jsstring :=
  match detail with
  | Some d => or_else d (js "Failed to send email")
  | None => js "Failed to send email"
  end.

(** From the [await] on. *)
Definition sendEmail_resume (r : send_response) (w : World) : World :=
  match r with
  | SendRejected m => w |> sendEmail_catch m
  | SendNotOk _ (NotJson m) => w |> sendEmail_catch m
  | SendNotOk _ (Json detail) =>
      w |> sendEmail_catch (detail_or_default detail)
  | SendOk (NotJson m) => w |> sendEmail_catch m
  | SendOk (Json sent_to) =>
      w |> showNotification
             (js "Email sent successfully to "
                ++ number_to_string (length sent_to)
                ++ js " recipient(s)!")
             success
  end
  |> setLoading false.

(** ** Timers *)

(** A due callback runs [setNotification(null)]. *)
Fixpoint run_timers (due : list nat) (w : World) : World :=
  match due with
  | [] => w
  | _ :: due' => run_timers due' (setNotification None w)
  end.

Definition set_clock_timers (t : nat) (ts : list nat) (w : World) : World :=
  mkWorld (activeTab w) (formData w) (generatedEmail w) (loading w)
    (notification w) t ts (fetched w) (awaiting w) (console w) (uncaught w).

(** [dt] milliseconds pass: the callbacks that have come due run, the
    others stay pending. *)
Definition elapse (dt : nat) (w : World) : World :=
  let t := (clock w + dt)%nat in
  w |> set_clock_timers t (filter (λ due, t < due)%nat (timers w))
    |> run_timers (filter (λ due, due ≤ t)%nat (timers w)).

(** ** What the rendered markup lets happen *)

Inductive event :=
| SelectTab (t : Tab)
| InputChange (c : field_change)
| RecipientChange (index : nat) (v : jsstring)
| AddRecipient
| RemoveRecipient (index : nat)
| ClickGenerate
| ClickSend
| GenerateSettled (k : nat) (r : generate_response)
| SendSettled (k : nat) (r : send_response)
| Elapse (dt : nat).

Definition is_element (a : jsarray) (i : nat) : bool :=
  match a !! i with Some (Some _) => true | _ => false end.

Definition on_generate_tab (w : World) : bool :=
  match activeTab w with TabGenerate => true | _ => false end.

(** The send form is rendered under [activeTab === 'send'] and
    [generatedEmail ? ... : ...]. *)
Definition send_form_shown (w : World) : bool :=
  match activeTab w, generatedEmail w with
  | TabSend, Some _ => true
  | _, _ => false
  end.

(** Whether the control behind an event is on screen and not disabled:
    the two action buttons carry [disabled={loading}], a recipient row
    exists for every element [recipients.map] visits, and its remove button
    only under [recipients.length > 1]. A fetch can settle only while it is
    pending. *)
Definition enabled (e : event) (w : World) : bool :=
  match e with
  | SelectTab _ => true
  | InputChange (Field_prompt _) | InputChange (Field_groqApiKey _) =>
      on_generate_tab w
  | InputChange _ => send_form_shown w
  | RecipientChange i _ =>
      send_form_shown w && is_element (recipients (formData w)) i
  | AddRecipient => send_form_shown w
  | RemoveRecipient i =>
      send_form_shown w && is_element (recipients (formData w)) i
      && bool_decide (1 < length (recipients (formData w)))%nat
  | ClickGenerate => on_generate_tab w && negb (loading w)
  | ClickSend => send_form_shown w && negb (loading w)
  | GenerateSettled k _ =>
      match awaiting w !! k with
      | Some (PostGenerateEmail _ _) => true
      | _ => false
      end
  | SendSettled k _ =>
      match awaiting w !! k with
      | Some (PostSendEmailSmtp _ _ _ _ _ _ _) => true
      | _ => false
      end
  | Elapse _ => true
  end.

Definition handle (e : event) (w : World) : World :=
  match e with
  | SelectTab t => setActiveTab t w
  | InputChange c => handleInputChange c w
  | RecipientChange i v => handleRecipientChange i v w
  | AddRecipient => addRecipient w
  | RemoveRecipient i => removeRecipient i w
  | ClickGenerate => generateEmail w
  | ClickSend => sendEmail w
  | GenerateSettled k r => w |> settle k |> generateEmail_resume r
  | SendSettled k r => w |> settle k |> sendEmail_resume r
  | Elapse dt => elapse dt w
  end.

Definition dispatch (e : event) (w : World) : World :=
  if enabled e w then handle e w else w.

(** The worlds the running component can be in. *)
Inductive reachable : World → Prop :=
| reachable_initial : reachable initialWorld
| reachable_dispatch e w : reachable w → reachable (dispatch e w).

(** Direct calls of the recipient mutators, with any index. *)
Inductive recipient_call :=
| SetRecipient (index : nat) (v : jsstring)
| CallAddRecipient
| CallRemoveRecipient (index : nat).

Definition run_call (c : recipient_call) (w : World) : World :=
  match c with
  | SetRecipient i v => handleRecipientChange i v w
  | CallAddRecipient => addRecipient w
  | CallRemoveRecipient i => removeRecipient i w
  end.

Definition run_calls (cs : list recipient_call) (w : World) : World :=
  foldl (λ w c, run_call c w) w cs.

(** ** Predicates and sample states the statements use *)

Local Close Scope N_scope.

(** The number of elements of an array, holes not counted. *)
Definition count_elements (a : jsarray) : nat :=
  length (filter is_Some a).

(** Every slot holds a string: no hole and no [undefined]. *)
Definition all_strings (a : jsarray) : Prop :=
  Forall (λ o, ∃ s, o = Some (VString s)) a.

(** What keeps [removeRecipient] from emptying the list even when holes
    are around: there is an element, and a second one as soon as there is
    a second slot. *)
Definition keeps_an_element (a : jsarray) : Prop :=
  1 ≤ count_elements a ∧ (1 < length a → 2 ≤ count_elements a).

(** The ways the generation call fails: the fetch rejects, the status is
    not a success, or the body of a success is not JSON. *)
Definition generate_failed (r : generate_response) : Prop :=
  match r with
  | GenerateOk (Json _) => False
  | _ => True
  end.

(** What the [catch] block of [generateEmail] hands to [console.error]. *)
Definition generate_error_message (r : generate_response) : jsstring :=
  match r with
  | GenerateRejected m | GenerateOk (NotJson m) => m
  | GenerateNotOk status =>
      js "HTTP error! status: " ++ number_to_string status
  | GenerateOk (Json _) => []
  end.

(** A string that is non-blank after trimming. *)
Definition non_blank (s : jsstring) : Prop := trim s ≠ [].


(** The form of the scenario: recipients ["a@x.com", ""], sender
    "me@x.com" with credential "p", and a generated email. *)
Definition scenario_world : World :=
  initialWorld
  |> setGeneratedEmail
       (Some (mkEmail (js "Invoice Follow-up") (js "Hi team,...")))
  |> setActiveTab TabSend
  |> handleRecipientChange 0 (js "a@x.com")
  |> addRecipient
  |> handleInputChange (Field_senderEmail (js "me@x.com"))
  |> handleInputChange (Field_senderPassword (js "p")).



(** C1 as the specification words it: a handler called while the
    in-flight flag is set issues no request. *)
Definition handlers_check_the_flag : Prop :=
  ∀ w, loading w = true →
       fetched (generateEmail w) = fetched w
       ∧ fetched (sendEmail w) = fetched w.

(** A form ready to generate. *)
Definition ready_world : World :=
  initialWorld
  |> dispatch (InputChange (Field_prompt (js "Follow up on invoice")))
  |> dispatch (InputChange (Field_groqApiKey (js "k1"))).

(** The running component after a generation that succeeded, on the send
    tab, with a filled recipient row and a blank one. *)
Definition send_tab_world : World :=
  ready_world
  |> dispatch ClickGenerate
  |> dispatch (GenerateSettled 0
       (GenerateOk (Json (mkEmail (js "Invoice Follow-up")
                            (js "Hi team,...")))))
  |> dispatch (SelectTab TabSend)
  |> dispatch (RecipientChange 0 (js "a@x.com"))
  |> dispatch AddRecipient.

(** The flag is set exactly while one request is pending. *)
Definition in_flight_consistent (w : World) : Prop :=
  (loading w = true ∧ length (awaiting w) = 1)
  ∨ (loading w = false ∧ awaiting w = []).

(** ** Further predicates *)

(** C2 as the specification words it: after any sequence of calls the
    list has a slot, a removal at length one is a no-op, and any other
    removal deletes exactly the slot at the index. *)
Definition recipients_claim_as_worded : Prop :=
  ∀ (w : World) (cs : list recipient_call),
    reachable w →
    let w' := run_calls cs w in
    1 ≤ length (recipients (formData w'))
    ∧ (∀ index, length (recipients (formData w')) = 1 →
         removeRecipient index w' = w')
    ∧ (∀ index, 1 < length (recipients (formData w')) →
         recipients (formData (removeRecipient index w'))
         = delete index (recipients (formData w'))).

(** C10 as the specification words it, in its part on indices at or past
    the end: every such index grows the list to [index + 1] slots. *)
Definition every_index_grows_the_list : Prop :=
  ∀ (w : World) (index : nat) (v : jsstring),
    length (recipients (formData w)) ≤ index →
    length (recipients (formData (handleRecipientChange index v w)))
    = S index.

(** The form field a [handleInputChange] call names. *)
Inductive field :=
| prompt_field | groqApiKey_field | senderEmail_field
| senderPassword_field | smtpServer_field | smtpPort_field.

Definition field_of (c : field_change) : field :=
  match c with
  | Field_prompt _ => prompt_field
  | Field_groqApiKey _ => groqApiKey_field
  | Field_senderEmail _ => senderEmail_field
  | Field_senderPassword _ => senderPassword_field
  | Field_smtpServer _ => smtpServer_field
  | Field_smtpPort _ => smtpPort_field
  end.

(** A string recipient that is non-blank after trimming. *)
Definition non_blank_recipient (v : value) : Prop :=
  ∃ s, v = VString s ∧ non_blank s.

(** A request with every required field filled in. *)
Definition request_complete (r : request) : Prop :=
  match r with
  | PostGenerateEmail p k => non_blank p ∧ non_blank k
  | PostSendEmailSmtp rs _ _ sender password _ _ =>
      rs ≠ [] ∧ Forall non_blank_recipient rs
      ∧ sender ≠ [] ∧ password ≠ []
  end.

(** Pending notification timers are due in the future, within five
    seconds, and a visible notification has one. *)
Definition timers_pending (w : World) : Prop :=
  Forall (λ due, clock w < due ≤ clock w + 5000) (timers w)
  ∧ (notification w ≠ None → timers w ≠ []).

(** The events that edit the form. *)
Definition edits_form (e : event) : Prop :=
  match e with
  | InputChange _ | RecipientChange _ _ | AddRecipient
  | RemoveRecipient _ => True
  | _ => False
  end.

(** * The earlier component of [frontend/src/EmailGenerator.js] *)

Module Prototype.

(** [a.every(cb)]: empty slots are not visited and the first falsy
    answer ends the walk. *)
Fixpoint array_every (cb : value → completion bool) (a : jsarray)
  : completion bool :=
  match a with
  | [] => Normal true
  | None :: a' => array_every cb a'
  | Some v :: a' =>
      match cb v with
      | Throw e => Throw e
      | Normal false => Normal false
      | Normal true => array_every cb a'
      end
  end.

(** [r => !r.trim()] *)
Definition blank_callback (r : value) : completion bool :=
  match r with
  | VUndefined => Throw TypeError
  | VString s => Normal (negb (truthy (trim s)))
  end.

(** The two [axios.post] calls with the fields of their bodies; [to] is
    the recipient array as it stands. *)
Inductive request :=
| PostGenerateEmail (prompt : jsstring)
| PostSendEmail (to : jsarray) (subject body : jsstring).

(** The five state variables, then the requests issued, the requests
    still pending, the texts shown by [alert], and the messages
    written by [console.error]. *)
Record World := mkWorld {
  prompt : jsstring;
  generatedEmail : jsstring;
  recipients : jsarray;
  subject : jsstring;
  isSending : bool;
  fetched : list request;
  awaiting : list request;
  alerts : list jsstring;
  console : list (jsstring * jsstring)
}.

Definition initialWorld : World :=
  mkWorld [] [] [Some (VString [])] [] false [] [] [] [].

Definition setPrompt (v : jsstring) (w : World) : World :=
  mkWorld v (generatedEmail w) (recipients w) (subject w) (isSending w)
    (fetched w) (awaiting w) (alerts w) (console w).

Definition setGeneratedEmail (v : jsstring) (w : World) : World :=
  mkWorld (prompt w) v (recipients w) (subject w) (isSending w)
    (fetched w) (awaiting w) (alerts w) (console w).

Definition setRecipients (a : jsarray) (w : World) : World :=
  mkWorld (prompt w) (generatedEmail w) a (subject w) (isSending w)
    (fetched w) (awaiting w) (alerts w) (console w).

Definition setSubject (v : jsstring) (w : World) : World :=
  mkWorld (prompt w) (generatedEmail w) (recipients w) v (isSending w)
    (fetched w) (awaiting w) (alerts w) (console w).

Definition setIsSending (b : bool) (w : World) : World :=
  mkWorld (prompt w) (generatedEmail w) (recipients w) (subject w) b
    (fetched w) (awaiting w) (alerts w) (console w).

(** [axios.post(...)]: the request goes out and its promise is
    pending. *)
Definition post (r : request) (w : World) : World :=
  mkWorld (prompt w) (generatedEmail w) (recipients w) (subject w)
    (isSending w) (fetched w ++ [r]) (awaiting w ++ [r]) (alerts w)
    (console w).

Definition settle (k : nat) (w : World) : World :=
  mkWorld (prompt w) (generatedEmail w) (recipients w) (subject w)
    (isSending w) (fetched w) (delete k (awaiting w)) (alerts w)
    (console w).

Definition alert (text : jsstring) (w : World) : World :=
  mkWorld (prompt w) (generatedEmail w) (recipients w) (subject w)
    (isSending w) (fetched w) (awaiting w) (alerts w ++ [text])
    (console w).

Definition console_error (label msg : jsstring) (w : World) : World :=
  mkWorld (prompt w) (generatedEmail w) (recipients w) (subject w)
    (isSending w) (fetched w) (awaiting w) (alerts w)
    (console w ++ [(label, msg)]).

(** [axios.post] resolves with the data of a success response, and
    rejects on a failure status or a network error. *)
Inductive generate_response :=
| GenerateResolved (email : jsstring)
| GenerateRejected (message : jsstring).

Inductive send_response :=
| SendResolved (message : jsstring)
| SendRejected (message : jsstring).

(** Up to the [await]: no validation and no flag. *)
Definition generateEmail (w : World) : World :=
  w |> post (PostGenerateEmail (prompt w)).

Definition generateEmail_resume (r : generate_response) (w : World)
  : World :=
  match r with
  | GenerateResolved email => w |> setGeneratedEmail email
  | GenerateRejected m =>
      w |> console_error (js "Error generating email:") m
  end.

Definition sendEmail (w : World) : World :=
  w |> setIsSending true
    |> post (PostSendEmail (recipients w) (subject w) (generatedEmail w)).

Definition sendEmail_resume (r : send_response) (w : World) : World :=
  match r with
  | SendResolved m => w |> alert m
  | SendRejected m =>
      w |> console_error (js "Error sending email:") m
        |> alert (js "Failed to send email")
  end
  |> setIsSending false.

Definition handleRecipientChange (index : nat) (v : jsstring)
    (w : World) : World :=
  let updatedRecipients :=
    array_set (spread (recipients w)) index (VString v) in
  w |> setRecipients updatedRecipients.

Definition addRecipientField (w : World) : World :=
  w |> setRecipients (spread (recipients w) ++ [Some (VString [])]).

(** The [disabled] attribute of the send button:
    [isSending || !generatedEmail.trim() ||
     recipients.every(r => !r.trim())]. *)
Definition send_disabled (w : World) : completion bool :=
  if isSending w then Normal true
  else if negb (truthy (trim (generatedEmail w))) then Normal true
  else array_every blank_callback (recipients w).

(** The markup is on screen when evaluating it did not throw. *)
Definition renders (w : World) : bool :=
  match send_disabled w with
  | Normal _ => true
  | Throw _ => false
  end.

Inductive event :=
| ChangePrompt (v : jsstring)
| ClickGenerate
| RecipientChange (index : nat) (v : jsstring)
| AddRecipientField
| ChangeSubject (v : jsstring)
| ChangeGeneratedEmail (v : jsstring)
| ClickSend
| GenerateSettled (k : nat) (r : generate_response)
| SendSettled (k : nat) (r : send_response).

(** The generate button is never disabled; a recipient input exists for
    every element [recipients.map] visits; the send button follows
    [send_disabled]. *)
Definition enabled (e : event) (w : World) : bool :=
  match e with
  | ChangePrompt _ | ClickGenerate | AddRecipientField
  | ChangeSubject _ | ChangeGeneratedEmail _ => renders w
  | RecipientChange i _ => renders w && is_element (recipients w) i
  | ClickSend =>
      match send_disabled w with
      | Normal false => true
      | _ => false
      end
  | GenerateSettled k _ =>
      match awaiting w !! k with
      | Some (PostGenerateEmail _) => true
      | _ => false
      end
  | SendSettled k _ =>
      match awaiting w !! k with
      | Some (PostSendEmail _ _ _) => true
      | _ => false
      end
  end.

Definition handle (e : event) (w : World) : World :=
  match e with
  | ChangePrompt v => setPrompt v w
  | ClickGenerate => generateEmail w
  | RecipientChange i v => handleRecipientChange i v w
  | AddRecipientField => addRecipientField w
  | ChangeSubject v => setSubject v w
  | ChangeGeneratedEmail v => setGeneratedEmail v w
  | ClickSend => sendEmail w
  | GenerateSettled k r => w |> settle k |> generateEmail_resume r
  | SendSettled k r => w |> settle k |> sendEmail_resume r
  end.

Definition dispatch (e : event) (w : World) : World :=
  if enabled e w then handle e w else w.

Inductive reachable : World → Prop :=
| reachable_initial : reachable initialWorld
| reachable_dispatch e w : reachable w → reachable (dispatch e w).

Definition is_send (r : request) : Prop :=
  match r with PostSendEmail _ _ _ => True | _ => False end.

#[global] Instance is_send_dec (r : request) : Decision (is_send r).
Proof. destruct r; simpl; apply _. Defined.

(** A send request with a body and someone to send it to. *)
Definition send_request_usable (r : request) : Prop :=
  match r with
  | PostGenerateEmail _ => True
  | PostSendEmail to _ body =>
      non_blank body
      ∧ Exists (λ o, ∃ s, o = Some (VString s) ∧ non_blank s) to
  end.

End Prototype.

(** A form of the earlier component with a body and one blank row beside
    a filled one. *)
Definition prototype_scenario_world : Prototype.World :=
  Prototype.initialWorld
  |> Prototype.setGeneratedEmail (js "Hi")
  |> Prototype.handleRecipientChange 0 (js "a@x.com")
  |> Prototype.addRecipientField.

(** The flag of the earlier component is set exactly while one send
    request is pending. *)
Definition prototype_send_consistent (w : Prototype.World) : Prop :=
  (Prototype.isSending w = true
   ∧ length (filter Prototype.is_send (Prototype.awaiting w)) = 1)
  ∨ (Prototype.isSending w = false
     ∧ filter Prototype.is_send (Prototype.awaiting w) = []).

(** * Properties *)

(** ** Strings *)

Lemma trimStart_nil_iff (s : jsstring) :
  trimStart s = [] ↔ Forall (λ c, is_white_space c = true) s.
Proof.
  induction s as [|c s IH]; simpl.
  - split; [constructor | reflexivity].
  - destruct (is_white_space c) eqn:Hc.
    + rewrite IH. split.
      * intros H. constructor; assumption.
      * intros H. inversion H; assumption.
    + split; [discriminate |].
      intros H. inversion H; congruence.
Qed.

Lemma trimStart_head (s : jsstring) (c : N) (t : jsstring) :
  trimStart s = c :: t → is_white_space c = false.
Proof.
  induction s as [|x s IH]; simpl; [discriminate |].
  destruct (is_white_space x) eqn:Hx; [exact IH |].
  intros H. injection H as -> _. exact Hx.
Qed.

(** A string is blank after trimming exactly when it holds nothing but
    white space. *)
Lemma trim_nil_iff (s : jsstring) :
  trim s = [] ↔ Forall (λ c, is_white_space c = true) s.
Proof.
  unfold trim, trimEnd. split.
  - intros H. apply trimStart_nil_iff.
    apply (f_equal reverse) in H. rewrite reverse_involutive in H.
    change (reverse []) with (@nil N) in H.
    apply trimStart_nil_iff in H. rewrite Forall_reverse in H.
    destruct (trimStart s) as [|c t] eqn:Ht; [reflexivity |].
    apply trimStart_head in Ht.
    inversion H as [|? ? Hc _]; simpl in Hc; congruence.
  - intros H. apply trimStart_nil_iff in H. rewrite H. reflexivity.
Qed.

(** ** Arrays *)

Lemma length_spread (a : jsarray) : length (spread a) = length a.
Proof. unfold spread. apply length_fmap. Qed.

Lemma array_get_spread (a : jsarray) (j : nat) :
  array_get (spread a) j = array_get a j.
Proof.
  unfold array_get, spread. rewrite list_lookup_fmap.
  destruct (a !! j) as [[v|]|]; reflexivity.
Qed.

Lemma length_array_set (a : jsarray) (i : nat) (v : value) :
  length (array_set a i v)
  = if decide (i < length a) then length a
    else if is_array_index i then S i else length a.
Proof.
  unfold array_set. case_decide.
  - apply length_insert.
  - destruct (is_array_index i); [|reflexivity].
    rewrite !length_app, length_replicate. simpl. lia.
Qed.

Lemma array_get_set_eq (a : jsarray) (i : nat) (v : value) :
  i < length a ∨ is_array_index i = true →
  array_get (array_set a i v) i = v.
Proof.
  intros Hidx. unfold array_get, array_set. case_decide.
  - rewrite list_lookup_insert_eq by assumption. reflexivity.
  - destruct Hidx as [Hlt | ->]; [lia |].
    rewrite lookup_app_r by lia.
    rewrite lookup_app_r by (rewrite length_replicate; lia).
    rewrite length_replicate.
    replace (i - length a - (i - length a)) with 0 by lia. reflexivity.
Qed.

Lemma array_get_set_ne (a : jsarray) (i j : nat) (v : value) :
  j ≠ i → array_get (array_set a i v) j = array_get a j.
Proof.
  intros Hne. unfold array_get, array_set. case_decide.
  - rewrite list_lookup_insert_ne by congruence. reflexivity.
  - destruct (is_array_index i); [|reflexivity].
    destruct (decide (j < length a)) as [Hj|Hj].
    + rewrite lookup_app_l by assumption. reflexivity.
    + rewrite lookup_app_r by lia.
      rewrite (lookup_ge_None_2 a j) by lia.
      destruct (decide (j < i)) as [Hlt|Hge].
      * rewrite lookup_app_l by (rewrite length_replicate; lia).
        rewrite lookup_replicate_2 by lia. reflexivity.
      * rewrite lookup_app_r by (rewrite length_replicate; lia).
        rewrite length_replicate.
        destruct (j - length a - (i - length a)) as [|n] eqn:Hn; [lia |].
        reflexivity.
Qed.

(** An array without holes is left as it is by the spread syntax. *)
Lemma spread_dense (l : list value) : spread (dense l) = dense l.
Proof.
  unfold spread, dense. rewrite <- list_fmap_compose. reflexivity.
Qed.

Lemma count_elements_dense (l : list value) :
  count_elements (dense l) = length l.
Proof.
  unfold count_elements, dense.
  induction l as [|v l IH]; [reflexivity |].
  rewrite fmap_cons, filter_cons_True by (eexists; reflexivity).
  simpl. f_equal. exact IH.
Qed.

Lemma count_elements_spread (a : jsarray) :
  count_elements (spread a) = length a.
Proof.
  unfold count_elements, spread.
  induction a as [|o a IH]; [reflexivity |].
  rewrite fmap_cons, filter_cons_True by (eexists; reflexivity).
  simpl. f_equal. exact IH.
Qed.

Lemma count_elements_app (a b : jsarray) :
  count_elements (a ++ b) = count_elements a + count_elements b.
Proof. unfold count_elements. rewrite list.filter_app. apply length_app. Qed.

(** Filtering out one index never throws and loses at most one element. *)
Lemma array_filter_other_index_from (index k : nat) (a : jsarray) :
  ∃ r, array_filter (other_index_callback index) k a = Normal r
       ∧ count_elements a
         ≤ length r + (if decide (k ≤ index) then 1 else 0).
Proof.
  revert k. induction a as [|o a IH]; intros k; simpl.
  - exists []. split; [reflexivity | unfold count_elements; simpl; lia].
  - destruct (IH (S k)) as (r & Hr & Hle). destruct o as [v|].
    + rewrite Hr.
      assert (Hc : count_elements (Some v :: a) = S (count_elements a)).
      { unfold count_elements.
        rewrite filter_cons_True by (eexists; reflexivity). reflexivity. }
      rewrite Hc. destruct (k =? index) eqn:Hk; simpl.
      * apply Nat.eqb_eq in Hk. exists r. split; [reflexivity |].
        rewrite decide_False in Hle by lia.
        rewrite decide_True by lia. lia.
      * apply Nat.eqb_neq in Hk. exists (v :: r). split; [reflexivity |].
        simpl. repeat case_decide; lia.
    + exists r. split; [exact Hr |].
      assert (Hc : count_elements (None :: a) = count_elements a).
      { unfold count_elements.
        rewrite filter_cons_False by (intros [? ?]; discriminate).
        reflexivity. }
      rewrite Hc. repeat case_decide; lia.
Qed.

Lemma array_filter_other_index (index : nat) (a : jsarray) :
  ∃ r, array_filter (other_index_callback index) 0 a = Normal r
       ∧ count_elements a ≤ S (length r).
Proof.
  destruct (array_filter_other_index_from index 0 a) as (r & Hr & Hle).
  exists r. split; [exact Hr |]. rewrite decide_True in Hle by lia. lia.
Qed.

(** On an array without holes it removes the slot at that index and
    nothing else. *)
Lemma array_filter_other_index_dense (index k : nat) (l : list value) :
  array_filter (other_index_callback index) k (dense l)
  = Normal (if decide (k ≤ index) then delete (index - k) l else l).
Proof.
  revert k. induction l as [|v l IH]; intros k; simpl.
  - case_decide; reflexivity.
  - change (Some <$> l) with (dense l). rewrite IH.
    destruct (k =? index) eqn:Hk; simpl.
    + apply Nat.eqb_eq in Hk. subst k.
      rewrite decide_False by lia. rewrite decide_True by lia.
      replace (index - index) with 0 by lia. reflexivity.
    + apply Nat.eqb_neq in Hk.
      destruct (decide (k ≤ index)) as [Hle|Hgt].
      * rewrite decide_True by lia.
        replace (index - k) with (S (index - S k)) by lia. reflexivity.
      * rewrite decide_False by lia. reflexivity.
Qed.

(** ** Concrete runs *)

Example trim_strips_both_ends :
  trim ([0x3000; 0x0009]%N ++ js "a b " ++ [0x000A; 0x00A0]%N) = js "a b".
Proof. reflexivity. Qed.

Example number_to_string_500 : number_to_string 500 = js "500".
Proof. reflexivity. Qed.

(** Writing past the end leaves holes behind. *)
Example write_past_the_end :
  recipients (formData (handleRecipientChange 2 (js "b@x.com") initialWorld))
  = [Some (VString []); None; Some (VString (js "b@x.com"))].
Proof. reflexivity. Qed.

(** [filter] does not visit holes, so a removal after such a write also
    closes the gap. *)
Example removal_after_write_past_the_end :
  recipients (formData
    (run_calls [SetRecipient 2 (js "b@x.com"); CallRemoveRecipient 0]
       initialWorld))
  = [Some (VString (js "b@x.com"))].
Proof. reflexivity. Qed.

(** The spread syntax stores [undefined] where a hole was, and
    [email.trim()] throws on it before any request is made. *)
Example sendEmail_throws_on_undefined :
  let w := run_calls [SetRecipient 2 (js "b@x.com"); CallAddRecipient]
             (setGeneratedEmail (Some (mkEmail [] [])) initialWorld) in
  recipients (formData w)
  = [Some (VString []); Some VUndefined; Some (VString (js "b@x.com"));
     Some (VString [])]
  ∧ uncaught (sendEmail w) = [TypeError]
  ∧ fetched (sendEmail w) = [].
Proof. repeat split; reflexivity. Qed.

(** The scenario of a generation that succeeds. *)
Example generation_scenario :
  let w := ready_world
           |> dispatch ClickGenerate
           |> dispatch (GenerateSettled 0
                (GenerateOk (Json (mkEmail (js "Invoice Follow-up")
                                     (js "Hi team,..."))))) in
  fetched w = [PostGenerateEmail (js "Follow up on invoice") (js "k1")]
  ∧ awaiting w = []
  ∧ activeTab w = TabPreview
  ∧ generatedEmail w
    = Some (mkEmail (js "Invoice Follow-up") (js "Hi team,..."))
  ∧ loading w = false.
Proof. repeat split; reflexivity. Qed.

(** ** The recipient list *)

Lemma all_strings_dense (a : jsarray) :
  all_strings a → ∃ l, a = dense l.
Proof.
  induction 1 as [|o a [s ->] _ [l ->]].
  - exists []. reflexivity.
  - exists (VString s :: l). reflexivity.
Qed.

Lemma all_strings_spread (a : jsarray) : all_strings a → spread a = a.
Proof.
  intros H. destruct (all_strings_dense a H) as [l ->]. apply spread_dense.
Qed.

Lemma is_element_lt (a : jsarray) (i : nat) :
  is_element a i = true → i < length a.
Proof.
  unfold is_element. intros H. apply lookup_lt_is_Some.
  destruct (a !! i); [eexists; reflexivity | discriminate].
Qed.

(** On a list of strings [removeRecipient] deletes the slot at the index
    (none when the index is past the end), provided a second slot exists. *)
Lemma removeRecipient_all_strings (w : World) (index : nat) :
  all_strings (recipients (formData w)) →
  1 < length (recipients (formData w)) →
  removeRecipient index w
  = setFormData (with_recipients (delete index (recipients (formData w)))) w.
Proof.
  intros Hs Hlen. unfold removeRecipient. rewrite decide_True by assumption.
  destruct (all_strings_dense _ Hs) as [l Hl]. rewrite Hl.
  rewrite array_filter_other_index_dense, decide_True by lia.
  rewrite Nat.sub_0_r. unfold dense. rewrite list_fmap_delete. reflexivity.
Qed.

Lemma length_delete_le {A} (l : list A) (i : nat) :
  length l - 1 ≤ length (delete i l).
Proof.
  revert i. induction l as [|x l IH]; intros [|i]; simpl; try lia.
  specialize (IH i). lia.
Qed.

(** *** Frame lemmas: what leaves the form alone *)

(** Due callbacks all do the same thing, so running them leaves the world
    as it is or clears the notification. *)
Lemma run_timers_cases (due : list nat) (w : World) :
  run_timers due w = w ∨ run_timers due w = setNotification None w.
Proof.
  revert w. induction due as [|d due IH]; intros w; simpl.
  - left. reflexivity.
  - right. destruct (IH (setNotification None w)) as [-> | ->]; reflexivity.
Qed.

Lemma formData_run_timers (due : list nat) (w : World) :
  formData (run_timers due w) = formData w.
Proof. destruct (run_timers_cases due w) as [-> | ->]; reflexivity. Qed.

Lemma clock_run_timers (due : list nat) (w : World) :
  clock (run_timers due w) = clock w.
Proof. destruct (run_timers_cases due w) as [-> | ->]; reflexivity. Qed.

Lemma timers_run_timers (due : list nat) (w : World) :
  timers (run_timers due w) = timers w.
Proof. destruct (run_timers_cases due w) as [-> | ->]; reflexivity. Qed.

Lemma formData_generateEmail (w : World) :
  formData (generateEmail w) = formData w.
Proof. unfold generateEmail. case_match; reflexivity. Qed.

Lemma formData_sendEmail (w : World) :
  formData (sendEmail w) = formData w.
Proof. unfold sendEmail. repeat case_match; reflexivity. Qed.

Lemma formData_generateEmail_resume (r : generate_response) (w : World) :
  formData (generateEmail_resume r w) = formData w.
Proof. destruct r as [m|[m|data]|status]; reflexivity. Qed.

Lemma formData_sendEmail_resume (r : send_response) (w : World) :
  formData (sendEmail_resume r w) = formData w.
Proof. destruct r as [m|[m|sent]|status [m|detail]]; reflexivity. Qed.

Lemma recipients_with_field (c : field_change) (fd : FormData) :
  recipients (with_field c fd) = recipients fd.
Proof. destruct c; reflexivity. Qed.

Create Rewrite HintDb form_frame.
#[local] Hint Rewrite formData_generateEmail formData_sendEmail
  formData_generateEmail_resume formData_sendEmail_resume
  formData_run_timers recipients_with_field : form_frame.

(** The recipient list of the running component is a non-empty list of
    strings: the markup only offers the indices it rendered. *)
Lemma reachable_recipients (w : World) :
  reachable w →
  all_strings (recipients (formData w))
  ∧ 1 ≤ length (recipients (formData w)).
Proof.
  induction 1 as [|e w Hr [Hs Hlen]].
  - split; [|simpl; lia].
    repeat constructor. exists []. reflexivity.
  - unfold dispatch. destruct (enabled e w) eqn:Hen; [|split; assumption].
    destruct e as [t|c|i v| |i| | |k r|k r|dt]; simpl handle;
      try (unfold elapse; autorewrite with form_frame; simpl;
           autorewrite with form_frame; split; assumption).
    + simpl in Hen. apply andb_prop in Hen as [_ Hi].
      apply is_element_lt in Hi. simpl.
      rewrite all_strings_spread by assumption.
      unfold array_set. rewrite decide_True by assumption. split.
      * apply Forall_insert; [assumption | eexists; reflexivity].
      * rewrite length_insert. assumption.
    + simpl. rewrite all_strings_spread by assumption. split.
      * apply Forall_app. split; [assumption |].
        repeat constructor. eexists; reflexivity.
      * rewrite length_app. simpl. lia.
    + simpl in Hen. apply andb_prop in Hen as [_ Hlt].
      apply bool_decide_eq_true in Hlt.
      rewrite removeRecipient_all_strings by assumption. simpl. split.
      * apply Forall_delete. assumption.
      * pose proof (length_delete_le (recipients (formData w)) i). lia.
Qed.

(** *** Direct calls, any index *)

Lemma count_elements_le (a : jsarray) : count_elements a ≤ length a.
Proof. apply length_filter. Qed.

Lemma count_elements_replicate_None (n : nat) :
  count_elements (replicate n None) = 0.
Proof.
  unfold count_elements. induction n as [|n IH]; [reflexivity |].
  simpl replicate.
  rewrite filter_cons_False by (intros [? ?]; discriminate). exact IH.
Qed.

Lemma count_elements_array_set_spread (a : jsarray) (i : nat) (v : value) :
  count_elements (array_set (spread a) i v)
  = if decide (i < length a) then length a
    else if is_array_index i then S (length a) else length a.
Proof.
  unfold array_set. rewrite length_spread. case_decide as Hi;
    [|destruct (is_array_index i); [|apply count_elements_spread]].
  - assert (H : ∃ l, <[i:=Some v]> (spread a) = dense l).
    { exists (<[i:=v]> (default VUndefined <$> a)).
      unfold dense, spread. rewrite list_fmap_insert.
      rewrite <- list_fmap_compose. reflexivity. }
    destruct H as [l Hl]. rewrite Hl, count_elements_dense.
    rewrite <- (length_fmap Some l). fold (dense l). rewrite <- Hl.
    rewrite length_insert. apply length_spread.
  - rewrite !count_elements_app, count_elements_spread,
      count_elements_replicate_None.
    unfold count_elements.
    rewrite filter_cons_True by (eexists; reflexivity). simpl. lia.
Qed.

Lemma run_call_keeps_an_element (c : recipient_call) (w : World) :
  keeps_an_element (recipients (formData w)) →
  keeps_an_element (recipients (formData (run_call c w))).
Proof.
  intros [H1 H2]. set (a := recipients (formData w)) in *.
  pose proof (count_elements_le a) as Hle.
  destruct c as [i v| |i]; simpl; fold a.
  - unfold keeps_an_element.
    rewrite count_elements_array_set_spread, length_array_set, length_spread.
    case_decide; [lia |]. destruct (is_array_index i); lia.
  - unfold keeps_an_element.
    rewrite count_elements_app, count_elements_spread, length_app,
      length_spread.
    unfold count_elements.
    rewrite filter_cons_True by (eexists; reflexivity). simpl. lia.
  - unfold removeRecipient. fold a. case_decide as Hlen; [|split; assumption].
    destruct (array_filter_other_index i a) as (r & -> & Hr). simpl.
    unfold keeps_an_element.
    rewrite count_elements_dense. unfold dense. rewrite length_fmap. lia.
Qed.

Lemma run_calls_keeps_an_element (cs : list recipient_call) (w : World) :
  keeps_an_element (recipients (formData w)) →
  keeps_an_element (recipients (formData (run_calls cs w))).
Proof.
  revert w. induction cs as [|c cs IH]; intros w Hw; [exact Hw |].
  apply (IH (run_call c w)), run_call_keeps_an_element, Hw.
Qed.

Lemma all_strings_keeps_an_element (a : jsarray) :
  all_strings a → 1 ≤ length a → keeps_an_element a.
Proof.
  intros Hs Hlen. destruct (all_strings_dense a Hs) as [l ->].
  unfold keeps_an_element. rewrite count_elements_dense.
  unfold dense in *. rewrite length_fmap in *. lia.
Qed.

(** On any array, holes or not, [removeRecipient]'s filter drops the slot
    at the index and every empty slot with it. *)
Lemma array_filter_other_index_holes (index k : nat) (a : jsarray) :
  ∃ r, array_filter (other_index_callback index) k a = Normal r
       ∧ dense r
         = filter is_Some
             (if decide (k ≤ index) then delete (index - k) a else a).
Proof.
  revert k. induction a as [|o a IH]; intros k.
  - exists []. split; [reflexivity |]. case_decide; reflexivity.
  - destruct (IH (S k)) as (r & Hr & Hd). simpl. rewrite Hr.
    destruct o as [v|].
    + destruct (k =? index) eqn:Hk; simpl.
      * apply Nat.eqb_eq in Hk. subst k. exists r. split; [reflexivity |].
        rewrite Hd, decide_False, decide_True by lia.
        replace (index - index) with 0 by lia. reflexivity.
      * apply Nat.eqb_neq in Hk. exists (v :: r). split; [reflexivity |].
        unfold dense in *. rewrite fmap_cons, Hd.
        destruct (decide (k ≤ index)) as [Hle|Hgt].
        -- rewrite decide_True by lia.
           replace (index - k) with (S (index - S k)) by lia. simpl.
           rewrite filter_cons_True by (eexists; reflexivity). reflexivity.
        -- rewrite decide_False by lia.
           rewrite filter_cons_True by (eexists; reflexivity). reflexivity.
    + exists r. split; [reflexivity |]. rewrite Hd.
      destruct (decide (k ≤ index)) as [Hle|Hgt].
      * destruct (decide (k = index)) as [->|Hne].
        -- rewrite decide_False by lia.
           replace (index - index) with 0 by lia. reflexivity.
        -- rewrite decide_True by lia.
           replace (index - k) with (S (index - S k)) by lia. simpl.
           rewrite filter_cons_False by (intros [? ?]; discriminate).
           reflexivity.
      * rewrite decide_False by lia.
        rewrite filter_cons_False by (intros [? ?]; discriminate).
        reflexivity.
Qed.

Lemma filter_is_Some_all (a : jsarray) :
  Forall is_Some a → filter is_Some a = a.
Proof.
  induction 1 as [|o a Ho _ IH]; [reflexivity |].
  rewrite filter_cons_True by assumption. f_equal. exact IH.
Qed.

(** After an out-of-range write the removal of slot 0 takes three slots
    to one, where deleting one slot would leave two. *)
Lemma removal_closes_holes : ¬ recipients_claim_as_worded.
Proof.
  intros H.
  destruct (H initialWorld [SetRecipient 2 (js "b@x.com")]
              reachable_initial) as (_ & _ & Hdel).
  specialize (Hdel 0). simpl in Hdel.
  assert (Hlen : 1 < 3) by lia. specialize (Hdel Hlen).
  discriminate Hdel.
Qed.

(** C2, amended. In every state the running component reaches, and after
    any further sequence of [setRecipient] / [addRecipient] /
    [removeRecipient] calls with any indices, the recipient list has at
    least one slot and [removeRecipient] changes nothing when the list
    has exactly one entry. Otherwise it deletes the slot at the given
    index and, with it, every empty slot an out-of-range [setRecipient]
    left in the list; on a list without empty slots, as every list of the
    running component is, it deletes exactly the slot at that index. *)
Theorem recipients_never_empty (w : World) (cs : list recipient_call) :
  reachable w →
  let w' := run_calls cs w in
  let a := recipients (formData w') in
  1 ≤ length a
  ∧ (∀ index, length a = 1 → removeRecipient index w' = w')
  ∧ (∀ index, 1 < length a →
       removeRecipient index w'
       = setFormData
           (with_recipients (filter is_Some (delete index a))) w')
  ∧ (∀ index, 1 < length a → Forall is_Some a →
       removeRecipient index w'
       = setFormData (with_recipients (delete index a)) w')
  ∧ Forall is_Some (recipients (formData w)).
Proof.
  intros Hr w' a. destruct (reachable_recipients w Hr) as [Hs Hlen].
  assert (Hholes : ∀ index, 1 < length a →
            removeRecipient index w'
            = setFormData
                (with_recipients (filter is_Some (delete index a))) w').
  { intros index H1. unfold removeRecipient. fold a.
    rewrite decide_True by assumption.
    destruct (array_filter_other_index_holes index 0 a) as (r & -> & Hd).
    rewrite Hd, decide_True, Nat.sub_0_r by lia. reflexivity. }
  split; [|split; [|split; [|split]]].
  - pose proof (run_calls_keeps_an_element cs w
                  (all_strings_keeps_an_element _ Hs Hlen)) as [H1 _].
    pose proof (count_elements_le a). fold w' a in H1. lia.
  - intros index H1. unfold removeRecipient. fold a.
    rewrite decide_False by lia. reflexivity.
  - exact Hholes.
  - intros index H1 Hdense. rewrite Hholes by assumption.
    rewrite filter_is_Some_all by (apply Forall_delete, Hdense).
    reflexivity.
  - eapply List.Forall_impl; [|exact Hs]. intros o [s ->].
    eexists; reflexivity.
Qed.

Lemma recipients_never_empty_witness :
  reachable (dispatch ClickGenerate initialWorld)
  ∧ 1 ≤ length (recipients (formData
        (run_calls [SetRecipient 4 []; CallRemoveRecipient 0;
                    CallRemoveRecipient 0]
           (dispatch ClickGenerate initialWorld)))).
Proof.
  split.
  - apply reachable_dispatch, reachable_initial.
  - apply (recipients_never_empty (dispatch ClickGenerate initialWorld)
             [SetRecipient 4 []; CallRemoveRecipient 0;
              CallRemoveRecipient 0]).
    apply reachable_dispatch, reachable_initial.
Defined.

Lemma is_array_index_false (i : nat) :
  (4294967295 ≤ N.of_nat i)%N → is_array_index i = false.
Proof. intros H. unfold is_array_index. apply N.ltb_ge. exact H. Qed.

(** Past the end and past the array indices the list keeps its length. *)
Lemma handleRecipientChange_past_array_indices
    (w : World) (i : nat) (v : jsstring) :
  length (recipients (formData w)) ≤ i →
  is_array_index i = false →
  length (recipients (formData (handleRecipientChange i v w)))
  = length (recipients (formData w)).
Proof.
  intros Hi Hidx. simpl. rewrite length_array_set, length_spread.
  rewrite decide_False, Hidx by lia. reflexivity.
Qed.

(** At the first key that is no array index the list is not grown. *)
Lemma huge_index_does_not_grow : ¬ every_index_grows_the_list.
Proof.
  intros H.
  assert (Hno : ∀ i, N.of_nat i = 4294967295%N → False).
  { intros i Hi.
    assert (Hone : length (recipients (formData initialWorld)) = 1)
      by reflexivity.
    assert (Hlen : length (recipients (formData initialWorld)) ≤ i)
      by (rewrite Hone; lia).
    specialize (H initialWorld i [] Hlen).
    rewrite handleRecipientChange_past_array_indices in H;
      [| exact Hlen | apply is_array_index_false; lia].
    rewrite Hone in H. lia. }
  exact (Hno (N.to_nat 4294967295) (N2Nat.id 4294967295)).
Qed.

(** C10, amended. [handleRecipientChange] checks no bounds: within the
    list it replaces the entry at the index and keeps the length; at or
    past the end, at an array index (a key below [2^32 - 1]), it is not
    rejected and the list grows to [index + 1] slots; at a larger key it
    is not rejected either, but the list only gets copied: its length and
    entries stay. Where the value is written, the index then reads it,
    and every other array index reads what it read before. On a list of
    strings the in-range write is the replacement of that one slot. *)
Theorem handleRecipientChange_no_bounds_check
    (w : World) (index : nat) (v : jsstring) :
  let old := recipients (formData w) in
  let new := recipients (formData (handleRecipientChange index v w)) in
  handleRecipientChange index v w = setFormData (with_recipients new) w
  ∧ (index < length old → length new = length old)
  ∧ (length old ≤ index → is_array_index index = true →
     length new = S index)
  ∧ (length old ≤ index → is_array_index index = false →
     new = spread old)
  ∧ (index < length old ∨ is_array_index index = true →
     array_get new index = VString v)
  ∧ (∀ j, j ≠ index → is_array_index j = true →
          array_get new j = array_get old j)
  ∧ (all_strings old → index < length old →
     new = <[index := Some (VString v)]> old).
Proof.
  simpl. split; [reflexivity |].
  split; [|split; [|split; [|split; [|split]]]].
  - intros Hi. rewrite length_array_set, length_spread.
    rewrite decide_True by assumption. reflexivity.
  - intros Hi Hidx. rewrite length_array_set, length_spread.
    rewrite decide_False, Hidx by lia. reflexivity.
  - intros Hi Hidx. unfold array_set. rewrite length_spread.
    rewrite decide_False, Hidx by lia. reflexivity.
  - intros Hi. apply array_get_set_eq. rewrite length_spread. exact Hi.
  - intros j Hj _. rewrite array_get_set_ne by assumption.
    apply array_get_spread.
  - intros Hs Hi. rewrite all_strings_spread by assumption.
    unfold array_set. rewrite decide_True by assumption. reflexivity.
Qed.

Lemma handleRecipientChange_no_bounds_check_witness :
  length (recipients (formData
            (handleRecipientChange 3 (js "a@x.com") initialWorld))) = 4
  ∧ length (recipients (formData
            (handleRecipientChange 0 (js "a@x.com") initialWorld))) = 1.
Proof.
  pose proof (handleRecipientChange_no_bounds_check
                initialWorld 3 (js "a@x.com")) as (_ & _ & Hgrow & _).
  pose proof (handleRecipientChange_no_bounds_check
                initialWorld 0 (js "a@x.com")) as (_ & Hin & _).
  split.
  - apply Hgrow; [simpl; lia | reflexivity].
  - apply Hin. simpl. lia.
Defined.

(** ** Generation *)

(** C4. With a prompt or a key that is blank after trimming,
    [generateEmail] issues no request, leaves the in-flight flag alone and
    raises the error notification. *)
Theorem generateEmail_blank_input (w : World) :
  trim (prompt (formData w)) = [] ∨ trim (groqApiKey (formData w)) = [] →
  fetched (generateEmail w) = fetched w
  ∧ awaiting (generateEmail w) = awaiting w
  ∧ loading (generateEmail w) = loading w
  ∧ notification (generateEmail w)
    = Some (mkNotification
              (js "Please provide both a prompt and Groq API key") error)
  ∧ timers (generateEmail w) = timers w ++ [clock w + 5000].
Proof.
  intros H. unfold generateEmail.
  assert (Hc : negb (truthy (trim (prompt (formData w))))
               || negb (truthy (trim (groqApiKey (formData w)))) = true).
  { destruct H as [-> | ->]; simpl; [reflexivity | apply orb_true_r]. }
  rewrite Hc. repeat split; reflexivity.
Qed.

Lemma generateEmail_blank_input_witness :
  fetched (generateEmail
             (handleInputChange (Field_prompt (js "  ")) initialWorld))
  = [].
Proof.
  apply (generateEmail_blank_input
           (handleInputChange (Field_prompt (js "  ")) initialWorld)).
  left. reflexivity.
Defined.

(** With both present the request goes out and the flag is raised. *)
Lemma generateEmail_valid_input (w : World) :
  trim (prompt (formData w)) ≠ [] →
  trim (groqApiKey (formData w)) ≠ [] →
  generateEmail w
  = fetch (PostGenerateEmail (prompt (formData w)) (groqApiKey (formData w)))
      (setLoading true w).
Proof.
  intros Hp Hk. unfold generateEmail.
  destruct (trim (prompt (formData w))); [congruence |].
  destruct (trim (groqApiKey (formData w))); [congruence |]. reflexivity.
Qed.

(** C5. When the generation call succeeds with [{subject, content}], the
    object is stored as the generated email, the stage becomes preview, a
    success notification is raised and the in-flight flag is cleared;
    the form and the request log are untouched. *)
Theorem generateEmail_success (w : World) (data : Email) :
  let w' := generateEmail_resume (GenerateOk (Json data)) w in
  generatedEmail w' = Some data
  ∧ activeTab w' = TabPreview
  ∧ notification w'
    = Some (mkNotification (js "Email generated successfully!") success)
  ∧ timers w' = timers w ++ [clock w + 5000]
  ∧ loading w' = false
  ∧ formData w' = formData w
  ∧ fetched w' = fetched w.
Proof. repeat split; reflexivity. Qed.

(** C9. When the generation call fails, the generated email and the stage
    stay as they were, the in-flight flag is cleared, and the error
    notification carries one fixed message whatever the failure was: the
    status code only reaches the console. *)
Theorem generateEmail_failure (w : World) (r : generate_response) :
  generate_failed r →
  let w' := generateEmail_resume r w in
  generatedEmail w' = generatedEmail w
  ∧ activeTab w' = activeTab w
  ∧ loading w' = false
  ∧ notification w'
    = Some (mkNotification
              (js "Failed to generate email. Please check your API key and try again.")
              error)
  ∧ console w'
    = console w ++ [(js "Error generating email:", generate_error_message r)].
Proof.
  destruct r as [m|[m|data]|status]; simpl; intros H;
    try contradiction; repeat split; reflexivity.
Qed.

Lemma generateEmail_failure_witness :
  notification (generateEmail_resume (GenerateNotOk 401) initialWorld)
  = Some (mkNotification
            (js "Failed to generate email. Please check your API key and try again.")
            error).
Proof.
  apply (generateEmail_failure initialWorld (GenerateNotOk 401)).
  exact I.
Defined.

(** ** Delivery *)

Lemma truthy_true_iff (s : jsstring) : truthy s = true ↔ s ≠ [].
Proof. destruct s; simpl; split; congruence. Qed.

(** On a list of strings the recipient filter never throws and keeps, in
    order, the entries that are non-blank after trimming. *)
Lemma array_filter_trim_strings (k : nat) (ss : list jsstring) :
  array_filter trim_callback k (dense (VString <$> ss))
  = Normal (VString <$> filter non_blank ss).
Proof.
  revert k. induction ss as [|s ss IH]; intros k; [reflexivity |].
  simpl. change (Some <$> (VString <$> ss)) with (dense (VString <$> ss)).
  rewrite IH. unfold non_blank at 2.
  destruct (trim s) eqn:Hs; simpl.
  - rewrite filter_cons_False by (unfold non_blank; rewrite Hs; congruence).
    reflexivity.
  - rewrite filter_cons_True by (unfold non_blank; rewrite Hs; congruence).
    reflexivity.
Qed.


(** C6. On a form whose recipients are strings, with a generated email
    and sender fields present, [sendEmail] raises the flag and posts
    exactly the recipients that are non-blank after trimming, in order,
    with the generated subject and content; when the call succeeds the
    success notification reports [sent_to.length], the stage and the
    generated email are as before and the flag is cleared. *)
Theorem sendEmail_success
    (w : World) (email : Email) (ss : list jsstring) :
  generatedEmail w = Some email →
  recipients (formData w) = dense (VString <$> ss) →
  filter non_blank ss ≠ [] →
  senderEmail (formData w) ≠ [] →
  senderPassword (formData w) ≠ [] →
  sendEmail w
  = fetch (PostSendEmailSmtp (VString <$> filter non_blank ss)
             (subject email) (content email)
             (senderEmail (formData w)) (senderPassword (formData w))
             (smtpServer (formData w)) (smtpPort (formData w)))
      (setLoading true w)
  ∧ ∀ (w1 : World) (sent_to : list jsstring),
      let w2 := sendEmail_resume (SendOk (Json sent_to)) w1 in
      notification w2
      = Some (mkNotification
                (js "Email sent successfully to "
                   ++ number_to_string (length sent_to)
                   ++ js " recipient(s)!")
                success)
      ∧ activeTab w2 = activeTab w1
      ∧ generatedEmail w2 = generatedEmail w1
      ∧ loading w2 = false.
Proof.
  intros Hg Hr Hv He Hp. split.
  - unfold sendEmail. rewrite Hg, Hr, array_filter_trim_strings.
    rewrite length_fmap.
    destruct (filter non_blank ss) as [|s vs] eqn:Hf; [congruence |].
    simpl.
    destruct (senderEmail (formData w)); [congruence |].
    destruct (senderPassword (formData w)); [congruence |].
    reflexivity.
  - intros w1 sent_to. repeat split; reflexivity.
Qed.

Lemma sendEmail_success_witness :
  fetched (sendEmail scenario_world)
  = [PostSendEmailSmtp [VString (js "a@x.com")]
       (js "Invoice Follow-up") (js "Hi team,...")
       (js "me@x.com") (js "p") (js "smtp.gmail.com") (Int 587)]
  ∧ notification
      (sendEmail_resume (SendOk (Json [js "a@x.com"]))
         (sendEmail scenario_world))
    = Some (mkNotification
              (js "Email sent successfully to 1 recipient(s)!") success).
Proof.
  destruct (sendEmail_success scenario_world
              (mkEmail (js "Invoice Follow-up") (js "Hi team,..."))
              [js "a@x.com"; []])
    as [Hsend Hdone].
  - reflexivity.
  - reflexivity.
  - vm_compute. discriminate.
  - vm_compute. discriminate.
  - vm_compute. discriminate.
  - split.
    + rewrite Hsend. reflexivity.
    + apply (Hdone (sendEmail scenario_world) [js "a@x.com"]).
Defined.






(** C7. What the error notification says when the delivery call answers
    with a failure status: a non-empty [detail] of a JSON body is shown;
    a JSON body without one gives the fallback; but a body that is not
    JSON (an empty one included) gives the message of the parse error
    [response.json()] rejected with, not the fallback. *)
Theorem sendEmail_failure_message (w : World) (status : nat) :
  (∀ d, d ≠ [] →
     notification (sendEmail_resume (SendNotOk status (Json (Some d))) w)
     = Some (mkNotification d error))
  ∧ notification (sendEmail_resume (SendNotOk status (Json None)) w)
    = Some (mkNotification (js "Failed to send email") error)
  ∧ (∀ m, m ≠ [] →
       notification (sendEmail_resume (SendNotOk status (NotJson m)) w)
       = Some (mkNotification m error))
  ∧ (∀ body, loading (sendEmail_resume (SendNotOk status body) w) = false).
Proof.
  split; [|split; [|split]].
  - intros [|c d] Hd; [congruence | reflexivity].
  - reflexivity.
  - intros [|c m] Hm; [congruence | reflexivity].
  - intros body. reflexivity.
Qed.

Lemma sendEmail_failure_message_witness :
  notification
    (sendEmail_resume
       (SendNotOk 500 (NotJson (js "Unexpected end of JSON input")))
       (sendEmail scenario_world))
  = Some (mkNotification (js "Unexpected end of JSON input") error)
  ∧ js "Unexpected end of JSON input" ≠ js "Failed to send email"
  ∧ notification
      (sendEmail_resume (SendNotOk 500 (Json (Some (js "auth failed"))))
         (sendEmail scenario_world))
    = Some (mkNotification (js "auth failed") error).
Proof.
  destruct (sendEmail_failure_message (sendEmail scenario_world) 500)
    as (Hdetail & _ & Hbody & _).
  split; [|split].
  - apply Hbody. vm_compute. discriminate.
  - vm_compute. discriminate.
  - apply Hdetail. vm_compute. discriminate.
Defined.

(** ** Notifications *)

Lemma notification_run_timers (due : list nat) (w : World) :
  due ≠ [] → notification (run_timers due w) = None.
Proof.
  intros Hne. destruct due as [|d due]; [congruence |]. simpl.
  destruct (run_timers_cases due (setNotification None w)) as [-> | ->];
    reflexivity.
Qed.

(** A single notification on an idle channel is visible for the whole
    five seconds and gone when they are over. *)
Lemma lone_notification_lifetime
    (w : World) (m : jsstring) (t : NotificationType) (dt : nat) :
  timers w = [] →
  (dt < 5000 →
   notification (elapse dt (showNotification m t w))
   = Some (mkNotification m t))
  ∧ notification (elapse 5000 (showNotification m t w)) = None.
Proof.
  intros Ht. unfold elapse, showNotification. simpl. rewrite Ht. simpl.
  split.
  - intros Hdt.
    rewrite (filter_cons_False (λ due, due ≤ clock w + dt))
      by (simpl; lia).
    reflexivity.
  - rewrite (filter_cons_True (λ due, due ≤ clock w + 5000))
      by (simpl; lia).
    reflexivity.
Qed.

(** C8. The channel holds at most one notification and
    [showNotification] replaces it, but the timer of the replaced one is
    not cancelled: a notification raised [d] milliseconds after another,
    [0 < d < 5000], is cleared when the earlier timer fires,
    [5000 - d] milliseconds after its own creation instead of [5000]. *)
Theorem superseding_notification_cleared_early
    (w : World) (m1 m2 : jsstring) (t1 t2 : NotificationType) (d : nat) :
  0 < d < 5000 →
  let w1 := showNotification m1 t1 w in
  let w2 := showNotification m2 t2 (elapse d w1) in
  let w3 := elapse (5000 - d) w2 in
  notification w2 = Some (mkNotification m2 t2)
  ∧ clock w3 = clock w2 + (5000 - d)
  ∧ clock w3 < clock w2 + 5000
  ∧ notification w3 = None.
Proof.
  intros Hd. simpl. split; [reflexivity |].
  split; [|split].
  - unfold elapse at 1. rewrite clock_run_timers. reflexivity.
  - unfold elapse at 1. rewrite clock_run_timers. simpl. lia.
  - unfold elapse at 1. apply notification_run_timers.
    unfold showNotification at 1. simpl timers. simpl clock.
    unfold elapse. rewrite timers_run_timers, clock_run_timers.
    simpl timers. simpl clock.
    rewrite !list.filter_app.
    rewrite (filter_cons_True (λ due, clock w + d < due) (clock w + 5000))
      by lia.
    simpl.
    intros Hnil. apply app_eq_nil in Hnil as [Hnil _].
    apply app_eq_nil in Hnil as [_ Hnil].
    rewrite filter_cons_True in Hnil by lia. discriminate Hnil.
Qed.

Lemma superseding_notification_cleared_early_witness :
  notification
    (elapse 2000
       (showNotification (js "second") success
          (elapse 3000 (showNotification (js "first") error initialWorld))))
  = None.
Proof.
  apply (superseding_notification_cleared_early
           initialWorld (js "first") (js "second") error success 3000).
  lia.
Defined.

(** ** One request at a time *)

Lemma reachable_ready_world : reachable ready_world.
Proof. repeat apply reachable_dispatch. apply reachable_initial. Qed.

(** Neither handler reads [loading]: called again while its first request
    is pending, [generateEmail] posts a second one. *)
Lemma generateEmail_ignores_the_flag : ¬ handlers_check_the_flag.
Proof.
  intros H.
  destruct (H (generateEmail ready_world) eq_refl) as [Hgen _].
  vm_compute in Hgen. discriminate Hgen.
Qed.

Lemma in_flight_elapse (dt : nat) (w : World) :
  loading (elapse dt w) = loading w ∧ awaiting (elapse dt w) = awaiting w.
Proof.
  unfold elapse.
  destruct (run_timers_cases
              (filter (λ due, due ≤ clock w + dt) (timers w))
              (set_clock_timers (clock w + dt)
                 (filter (λ due, clock w + dt < due) (timers w)) w))
    as [-> | ->]; split; reflexivity.
Qed.

Lemma in_flight_removeRecipient (index : nat) (w : World) :
  loading (removeRecipient index w) = loading w
  ∧ awaiting (removeRecipient index w) = awaiting w.
Proof.
  unfold removeRecipient. repeat case_match; split; reflexivity.
Qed.

Lemma in_flight_generateEmail (w : World) :
  loading w = false → awaiting w = [] →
  in_flight_consistent (generateEmail w).
Proof.
  intros Hl Ha. unfold generateEmail, in_flight_consistent.
  case_match; simpl; rewrite ?Hl, ?Ha; [right | left]; split; reflexivity.
Qed.

Lemma in_flight_sendEmail (w : World) :
  loading w = false → awaiting w = [] →
  in_flight_consistent (sendEmail w).
Proof.
  intros Hl Ha. unfold sendEmail, in_flight_consistent.
  repeat case_match; simpl; rewrite ?Hl, ?Ha;
    ((right; split; reflexivity) || (left; split; reflexivity)).
Qed.

Lemma in_flight_generateEmail_resume (r : generate_response) (w : World) :
  loading (generateEmail_resume r w) = false
  ∧ awaiting (generateEmail_resume r w) = awaiting w.
Proof. destruct r as [m|[m|data]|status]; split; reflexivity. Qed.

Lemma in_flight_sendEmail_resume (r : send_response) (w : World) :
  loading (sendEmail_resume r w) = false
  ∧ awaiting (sendEmail_resume r w) = awaiting w.
Proof. destruct r as [m|[m|sent]|status [m|detail]]; split; reflexivity. Qed.

(** The one pending request settles: none is left. *)
Lemma settle_last (k : nat) (w : World) :
  in_flight_consistent w → is_Some (awaiting w !! k) →
  awaiting (settle k w) = [].
Proof.
  intros [[_ Hlen] | [_ Ha]] [r Hr].
  - apply lookup_lt_Some in Hr as Hk. simpl.
    destruct (awaiting w) as [|x [|y l]]; simpl in *; try lia.
    destruct k; [reflexivity | lia].
  - rewrite Ha in Hr. discriminate Hr.
Qed.

Lemma reachable_in_flight (w : World) :
  reachable w → in_flight_consistent w.
Proof.
  induction 1 as [|e w Hr IH].
  - right. split; reflexivity.
  - unfold dispatch. destruct (enabled e w) eqn:Hen; [|exact IH].
    destruct e as [t|c|i v| |i| | |k r|k r|dt]; simpl handle;
      try exact IH.
    + destruct (in_flight_removeRecipient i w) as [Hl Ha].
      unfold in_flight_consistent. rewrite Hl, Ha. exact IH.
    + simpl in Hen. apply andb_prop in Hen as [_ Hl].
      apply negb_true_iff in Hl.
      destruct IH as [[Ht _] | [_ Ha]]; [congruence |].
      apply in_flight_generateEmail; assumption.
    + simpl in Hen. apply andb_prop in Hen as [_ Hl].
      apply negb_true_iff in Hl.
      destruct IH as [[Ht _] | [_ Ha]]; [congruence |].
      apply in_flight_sendEmail; assumption.
    + destruct (in_flight_generateEmail_resume r (settle k w)) as [Hl Ha].
      right. split; [exact Hl |]. rewrite Ha. apply settle_last; [exact IH |].
      simpl in Hen. destruct (awaiting w !! k); [eexists; reflexivity |].
      discriminate Hen.
    + destruct (in_flight_sendEmail_resume r (settle k w)) as [Hl Ha].
      right. split; [exact Hl |]. rewrite Ha. apply settle_last; [exact IH |].
      simpl in Hen. destruct (awaiting w !! k); [eexists; reflexivity |].
      discriminate Hen.
    + destruct (in_flight_elapse dt w) as [Hl Ha].
      unfold in_flight_consistent. rewrite Hl, Ha. exact IH.
Qed.

(** C1, amended. The handlers do not read the flag; the two buttons do,
    through [disabled={loading}]. So in every state the running component
    reaches at most one request is pending, the flag is set whenever one
    is, and while the flag is set a click on either button does nothing;
    a second click on Generate while the request of the first is pending
    leaves the total at that one request. *)
Theorem single_flight_by_disabled_buttons (w : World) :
  reachable w →
  length (awaiting w) ≤ 1
  ∧ (awaiting w ≠ [] → loading w = true)
  ∧ (loading w = true →
     dispatch ClickGenerate w = w ∧ dispatch ClickSend w = w)
  ∧ (∀ r, fetched (dispatch ClickGenerate w) = fetched w ++ [r] →
          fetched (dispatch ClickGenerate (dispatch ClickGenerate w))
          = fetched w ++ [r]).
Proof.
  intros Hr. pose proof (reachable_in_flight w Hr) as Hc.
  split; [|split; [|split]].
  - destruct Hc as [[_ ->] | [_ ->]]; simpl; lia.
  - destruct Hc as [[Hl _] | [_ Ha]]; [intros _; exact Hl | congruence].
  - intros Hl. unfold dispatch. simpl. rewrite Hl, !andb_false_r.
    split; reflexivity.
  - intros r Hfirst. rewrite <- Hfirst.
    assert (Hl : loading (dispatch ClickGenerate w) = true).
    { revert Hfirst. unfold dispatch.
      destruct (enabled ClickGenerate w);
        [|intros E; apply (f_equal length) in E;
          rewrite length_app in E; simpl in E; lia].
      simpl. unfold generateEmail. case_match; simpl.
      - intros E. apply (f_equal length) in E.
        rewrite length_app in E. simpl in E. lia.
      - reflexivity. }
    unfold dispatch at 1. simpl. rewrite Hl, andb_false_r. reflexivity.
Qed.

Lemma single_flight_by_disabled_buttons_witness :
  reachable (dispatch ClickGenerate ready_world)
  ∧ loading (dispatch ClickGenerate ready_world) = true
  ∧ length
      (fetched (dispatch ClickGenerate (dispatch ClickGenerate ready_world)))
    = 1.
Proof.
  pose proof reachable_ready_world as Hr0.
  pose proof (reachable_dispatch ClickGenerate _ Hr0) as Hr.
  split; [exact Hr | split; [reflexivity |]].
  destruct (single_flight_by_disabled_buttons ready_world Hr0)
    as (_ & _ & _ & Htwice).
  rewrite (Htwice (PostGenerateEmail (js "Follow up on invoice") (js "k1")))
    by reflexivity.
  reflexivity.
Defined.

(** ** How the form mutators compose *)

(** X1. Two [handleInputChange] calls on the same field leave the value of
    the second; on different fields their order does not matter. *)
Theorem handleInputChange_compose (c1 c2 : field_change) (w : World) :
  (field_of c1 = field_of c2 →
   handleInputChange c2 (handleInputChange c1 w) = handleInputChange c2 w)
  ∧ (field_of c1 ≠ field_of c2 →
     handleInputChange c2 (handleInputChange c1 w)
     = handleInputChange c1 (handleInputChange c2 w)).
Proof.
  split; intros H; destruct c1, c2; simpl in H;
    first [reflexivity | congruence].
Qed.

Lemma handleInputChange_compose_witness :
  handleInputChange (Field_prompt (js "b"))
    (handleInputChange (Field_prompt (js "a")) initialWorld)
  = handleInputChange (Field_prompt (js "b")) initialWorld
  ∧ handleInputChange (Field_groqApiKey (js "k"))
      (handleInputChange (Field_prompt (js "a")) initialWorld)
    = handleInputChange (Field_prompt (js "a"))
        (handleInputChange (Field_groqApiKey (js "k")) initialWorld).
Proof.
  split.
  - apply (handleInputChange_compose
             (Field_prompt (js "a")) (Field_prompt (js "b")) initialWorld).
    reflexivity.
  - apply (handleInputChange_compose
             (Field_prompt (js "a")) (Field_groqApiKey (js "k"))
             initialWorld).
    simpl. discriminate.
Defined.

Lemma spread_spread (a : jsarray) : spread (spread a) = spread a.
Proof.
  induction a as [|[v|] a IH]; [reflexivity | |];
    unfold spread in *; rewrite !fmap_cons, IH; reflexivity.
Qed.

Lemma spread_insert (a : jsarray) (i : nat) (v : value) :
  spread (<[i := Some v]> a) = <[i := Some v]> (spread a).
Proof. unfold spread. rewrite list_fmap_insert. reflexivity. Qed.

(** Within the list a write is the replacement of one slot of the copy. *)
Lemma handleRecipientChange_in_range (w : World) (i : nat) (v : jsstring) :
  i < length (recipients (formData w)) →
  handleRecipientChange i v w
  = setFormData
      (with_recipients
         (<[i := Some (VString v)]> (spread (recipients (formData w))))) w.
Proof.
  intros Hi. unfold handleRecipientChange, array_set.
  rewrite length_spread, decide_True by assumption. reflexivity.
Qed.

(** X2. Appending a slot and removing the last one gives back the state,
    on a recipient list of strings that has a slot. *)
Theorem addRecipient_then_remove_last (w : World) :
  all_strings (recipients (formData w)) →
  1 ≤ length (recipients (formData w)) →
  removeRecipient (length (recipients (formData w))) (addRecipient w) = w.
Proof.
  intros Hs Hlen.
  assert (Ha : recipients (formData (addRecipient w))
               = recipients (formData w) ++ [Some (VString [])]).
  { simpl. rewrite all_strings_spread by assumption. reflexivity. }
  rewrite removeRecipient_all_strings.
  - rewrite Ha, delete_middle, app_nil_r.
    destruct w as [tab [p k rs se sp sv pt] g l n c ts f a co u].
    reflexivity.
  - rewrite Ha. apply Forall_app. split; [assumption |].
    repeat constructor. eexists; reflexivity.
  - rewrite Ha, length_app. simpl. lia.
Qed.

Lemma addRecipient_then_remove_last_witness :
  removeRecipient 1 (addRecipient initialWorld) = initialWorld.
Proof.
  apply (addRecipient_then_remove_last initialWorld).
  - repeat constructor. exists []. reflexivity.
  - simpl. lia.
Defined.

(** X3. Within the list, the last of two writes to one slot wins and
    writes to different slots can be swapped. *)
Theorem handleRecipientChange_compose
    (w : World) (i j : nat) (u v : jsstring) :
  i < length (recipients (formData w)) →
  j < length (recipients (formData w)) →
  handleRecipientChange i v (handleRecipientChange i u w)
  = handleRecipientChange i v w
  ∧ (i ≠ j →
     handleRecipientChange i v (handleRecipientChange j u w)
     = handleRecipientChange j u (handleRecipientChange i v w)).
Proof.
  intros Hi Hj.
  assert (Hlen : ∀ k x, k < length (recipients (formData w)) →
            length (recipients (formData (handleRecipientChange k x w)))
            = length (recipients (formData w))).
  { intros k x Hk. rewrite handleRecipientChange_in_range by assumption.
    simpl. rewrite length_insert. apply length_spread. }
  split.
  - rewrite (handleRecipientChange_in_range (handleRecipientChange i u w))
      by (rewrite Hlen; assumption).
    rewrite !handleRecipientChange_in_range by assumption. simpl.
    rewrite spread_insert, spread_spread, list_insert_insert_eq.
    reflexivity.
  - intros Hne.
    rewrite (handleRecipientChange_in_range (handleRecipientChange j u w))
      by (rewrite Hlen; assumption).
    rewrite (handleRecipientChange_in_range (handleRecipientChange i v w))
      by (rewrite Hlen; assumption).
    rewrite !handleRecipientChange_in_range by assumption. simpl.
    rewrite !spread_insert, !spread_spread.
    rewrite list_insert_insert_ne by assumption. reflexivity.
Qed.

Lemma handleRecipientChange_compose_witness :
  handleRecipientChange 0 (js "b") (handleRecipientChange 0 (js "a") initialWorld)
  = handleRecipientChange 0 (js "b") initialWorld.
Proof.
  apply (handleRecipientChange_compose initialWorld 0 0 (js "a") (js "b"));
    simpl; lia.
Defined.

(** ** What the running component never does *)

Lemma all_strings_strings (a : jsarray) :
  all_strings a → ∃ ss, a = dense (VString <$> ss).
Proof.
  induction 1 as [|o a [s ->] _ [ss ->]].
  - exists []. reflexivity.
  - exists (s :: ss). reflexivity.
Qed.

Lemma uncaught_run_timers (due : list nat) (w : World) :
  uncaught (run_timers due w) = uncaught w.
Proof. destruct (run_timers_cases due w) as [-> | ->]; reflexivity. Qed.

Lemma uncaught_dispatch (e : event) (w : World) :
  all_strings (recipients (formData w)) →
  uncaught (dispatch e w) = uncaught w.
Proof.
  intros Hs. unfold dispatch. destruct (enabled e w); [|reflexivity].
  destruct e as [t|c|i v| |i| | |k r|k r|dt]; simpl handle;
    try reflexivity.
  - unfold removeRecipient. case_decide; [|reflexivity].
    destruct (array_filter_other_index i (recipients (formData w)))
      as (r & -> & _).
    reflexivity.
  - unfold generateEmail. case_match; reflexivity.
  - unfold sendEmail. destruct (all_strings_strings _ Hs) as [ss ->].
    rewrite array_filter_trim_strings. repeat case_match; reflexivity.
  - destruct r as [m|[m|data]|status]; reflexivity.
  - destruct r as [m|[m|sent]|status [m|detail]]; reflexivity.
  - unfold elapse. rewrite uncaught_run_timers. reflexivity.
Qed.

(** X4. No exception ever escapes a handler of the running component:
    the recipient rows it renders are strings, so the [trim] calls of
    [sendEmail] always have a string to work on. *)
Theorem reachable_no_exception (w : World) :
  reachable w → uncaught w = [].
Proof.
  induction 1 as [|e w Hr IH]; [reflexivity |].
  rewrite uncaught_dispatch; [exact IH |].
  apply reachable_recipients, Hr.
Qed.

Lemma reachable_no_exception_witness :
  enabled ClickSend send_tab_world = true
  ∧ recipients (formData send_tab_world)
    = [Some (VString (js "a@x.com")); Some (VString [])]
  ∧ notification (dispatch ClickSend send_tab_world)
    = Some (mkNotification
              (js "Please provide sender email and password") error)
  ∧ uncaught (dispatch ClickSend send_tab_world) = [].
Proof.
  split; [reflexivity |]. split; [reflexivity |]. split; [reflexivity |].
  apply (reachable_no_exception (dispatch ClickSend send_tab_world)).
  unfold send_tab_world. repeat apply reachable_dispatch.
  apply reachable_initial.
Defined.

Lemma fetched_run_timers (due : list nat) (w : World) :
  fetched (run_timers due w) = fetched w.
Proof. destruct (run_timers_cases due w) as [-> | ->]; reflexivity. Qed.

(** Only the two buttons can add to the request log. *)
Lemma fetched_dispatch_other (e : event) (w : World) :
  e ≠ ClickGenerate → e ≠ ClickSend →
  fetched (dispatch e w) = fetched w.
Proof.
  intros Hg Hs. unfold dispatch. destruct (enabled e w); [|reflexivity].
  destruct e as [t|c|i v| |i| | |k r|k r|dt]; simpl handle;
    try reflexivity; try congruence.
  - unfold removeRecipient. repeat case_match; reflexivity.
  - destruct r as [m|[m|data]|status]; reflexivity.
  - destruct r as [m|[m|sent]|status [m|detail]]; reflexivity.
  - unfold elapse. rewrite fetched_run_timers. reflexivity.
Qed.

Lemma fetched_generateEmail (w : World) :
  fetched (generateEmail w) = fetched w
  ∨ (non_blank (prompt (formData w)) ∧ non_blank (groqApiKey (formData w))
     ∧ fetched (generateEmail w)
       = fetched w ++ [PostGenerateEmail (prompt (formData w))
                         (groqApiKey (formData w))]).
Proof.
  unfold generateEmail, non_blank.
  destruct (trim (prompt (formData w))) eqn:Hp; [left; reflexivity |].
  destruct (trim (groqApiKey (formData w))) eqn:Hk; [left; reflexivity |].
  right. repeat split; congruence.
Qed.

(** What the recipient filter lets through is a non-blank string. *)
Lemma array_filter_trim_sound (k : nat) (a : jsarray) (r : list value) :
  array_filter trim_callback k a = Normal r →
  Forall non_blank_recipient r.
Proof.
  revert k r. induction a as [|[[|s]|] a IH]; intros k r; simpl.
  - intros [= <-]. constructor.
  - discriminate.
  - destruct (array_filter trim_callback (S k) a) as [r'|e] eqn:Hr';
      [|discriminate].
    intros [= <-]. specialize (IH _ _ Hr').
    destruct (trim s) eqn:Hs; simpl; [exact IH |].
    constructor; [|exact IH].
    exists s. split; [reflexivity |]. unfold non_blank. congruence.
  - apply IH.
Qed.

Lemma fetched_sendEmail (w : World) :
  fetched (sendEmail w) = fetched w
  ∨ ∃ r, request_complete r ∧ fetched (sendEmail w) = fetched w ++ [r].
Proof.
  unfold sendEmail.
  destruct (generatedEmail w) as [email|]; [|left; reflexivity].
  destruct (array_filter trim_callback 0 (recipients (formData w)))
    as [valid|e] eqn:Hf; [|left; reflexivity].
  destruct valid as [|x valid]; [left; reflexivity |]. simpl.
  destruct (senderEmail (formData w)) eqn:He; [left; reflexivity |].
  destruct (senderPassword (formData w)) eqn:Hp; [left; reflexivity |].
  right. eexists. split; [|reflexivity]. simpl.
  repeat split; try congruence.
  apply (array_filter_trim_sound _ _ _ Hf).
Qed.

(** X5. The request log only grows, by at most one request per event, and
    only a click on one of the two buttons adds to it: a response, failed
    or not, never triggers a request of its own. *)
Theorem fetched_grows_by_clicks (e : event) (w : World) :
  ∃ new, fetched (dispatch e w) = fetched w ++ new
         ∧ length new ≤ 1
         ∧ (new ≠ [] → e = ClickGenerate ∨ e = ClickSend).
Proof.
  assert (Hother : e ≠ ClickGenerate → e ≠ ClickSend →
            ∃ new, fetched (dispatch e w) = fetched w ++ new
                   ∧ length new ≤ 1
                   ∧ (new ≠ [] → e = ClickGenerate ∨ e = ClickSend)).
  { intros Hg Hs. exists [].
    rewrite app_nil_r, fetched_dispatch_other by assumption.
    repeat split; [simpl; lia | congruence]. }
  destruct e as [t|c|i v| |i| | |k r|k r|dt];
    try (apply Hother; discriminate); clear Hother.
  - unfold dispatch. destruct (enabled ClickGenerate w).
    + simpl handle.
      destruct (fetched_generateEmail w) as [-> | (_ & _ & ->)].
      * exists []. rewrite app_nil_r. repeat split; [simpl; lia | congruence].
      * eexists. repeat split; [simpl; lia | auto].
    + exists []. rewrite app_nil_r. repeat split; [simpl; lia | congruence].
  - unfold dispatch. destruct (enabled ClickSend w).
    + simpl handle. destruct (fetched_sendEmail w) as [-> | (r & _ & ->)].
      * exists []. rewrite app_nil_r. repeat split; [simpl; lia | congruence].
      * eexists. repeat split; [simpl; lia | auto].
    + exists []. rewrite app_nil_r. repeat split; [simpl; lia | congruence].
Qed.

(** X6. Every request the running component has issued is complete: a
    generation request carries a prompt and a key that are non-blank after
    trimming, a delivery request at least one recipient, only recipients
    that are non-blank strings, and a non-empty sender address and
    password. *)
Theorem reachable_requests_complete (w : World) :
  reachable w → Forall request_complete (fetched w).
Proof.
  induction 1 as [|e w Hr IH]; [constructor |].
  destruct e as [t|c|i v| |i| | |k r|k r|dt];
    try (rewrite fetched_dispatch_other by discriminate; exact IH).
  - unfold dispatch. destruct (enabled ClickGenerate w); [|exact IH].
    simpl handle.
    destruct (fetched_generateEmail w) as [-> | (Hp & Hk & ->)];
      [exact IH |].
    apply Forall_app. split; [exact IH |].
    constructor; [split; assumption | constructor].
  - unfold dispatch. destruct (enabled ClickSend w); [|exact IH].
    simpl handle.
    destruct (fetched_sendEmail w) as [-> | (r & Hc & ->)]; [exact IH |].
    apply Forall_app. split; [exact IH |].
    constructor; [exact Hc | constructor].
Qed.

Lemma reachable_requests_complete_witness :
  Forall request_complete (fetched (dispatch ClickGenerate ready_world)).
Proof.
  apply (reachable_requests_complete (dispatch ClickGenerate ready_world)).
  apply reachable_dispatch, reachable_ready_world.
Defined.

(** ** What each event leaves alone *)

(** X7. The stage changes only when a tab is selected, which sets it to
    that tab, or when a generation succeeds, which sets it to preview:
    no delivery, failure, edit or timer moves the user elsewhere. *)
Theorem activeTab_changes_only_by (e : event) (w : World) :
  activeTab (dispatch e w) = activeTab w
  ∨ (∃ t, e = SelectTab t ∧ activeTab (dispatch e w) = t)
  ∨ (∃ k data, e = GenerateSettled k (GenerateOk (Json data))
               ∧ activeTab (dispatch e w) = TabPreview).
Proof.
  unfold dispatch. destruct (enabled e w); [|left; reflexivity].
  destruct e as [t|c|i v| |i| | |k r|k r|dt]; simpl handle;
    try (left; reflexivity).
  - right. left. exists t. split; reflexivity.
  - left. unfold removeRecipient. repeat case_match; reflexivity.
  - left. unfold generateEmail. case_match; reflexivity.
  - left. unfold sendEmail. repeat case_match; reflexivity.
  - destruct r as [m|[m|data]|status]; try (left; reflexivity).
    right. right. exists k, data. split; reflexivity.
  - left. destruct r as [m|[m|sent]|status [m|detail]]; reflexivity.
  - left. unfold elapse.
    destruct (run_timers_cases
                (filter (λ due, due ≤ clock w + dt) (timers w))
                (set_clock_timers (clock w + dt)
                   (filter (λ due, clock w + dt < due) (timers w)) w))
      as [-> | ->]; reflexivity.
Qed.

Lemma formData_dispatch_other (e : event) (w : World) :
  ¬ edits_form e → formData (dispatch e w) = formData w.
Proof.
  intros He. unfold dispatch. destruct (enabled e w); [|reflexivity].
  destruct e as [t|c|i v| |i| | |k r|k r|dt]; simpl in He;
    try contradiction; simpl handle;
    unfold elapse; autorewrite with form_frame; reflexivity.
Qed.

(** X8. What the user typed is changed by the form's own events only:
    requests, responses of either kind, tab switches and timers leave
    every field as it was. And an event other than [handleInputChange]
    leaves the six scalar fields, the credentials among them, as they
    were. *)
Theorem formData_changes_only_by (e : event) (w : World) :
  (¬ edits_form e → formData (dispatch e w) = formData w)
  ∧ ((∀ c, e ≠ InputChange c) →
     with_recipients (recipients (formData w)) (formData (dispatch e w))
     = formData w).
Proof.
  split; [apply formData_dispatch_other |].
  intros Hc.
  assert (Heta : with_recipients (recipients (formData w)) (formData w)
                 = formData w).
  { destruct (formData w); reflexivity. }
  destruct e as [t|c|i v| |i| | |k r|k r|dt];
    try (rewrite formData_dispatch_other by (simpl; tauto); exact Heta).
  - destruct (Hc c eq_refl).
  - unfold dispatch. case_match; [|exact Heta]. simpl. exact Heta.
  - unfold dispatch. case_match; [|exact Heta]. simpl. exact Heta.
  - unfold dispatch. case_match; [|exact Heta]. simpl handle.
    unfold removeRecipient. repeat case_match; simpl; exact Heta.
Qed.

Lemma formData_changes_only_by_witness :
  formData (dispatch (GenerateSettled 0 (GenerateNotOk 500))
              (dispatch ClickGenerate ready_world))
  = formData (dispatch ClickGenerate ready_world).
Proof.
  destruct (formData_changes_only_by
              (GenerateSettled 0 (GenerateNotOk 500))
              (dispatch ClickGenerate ready_world)) as [Hframe _].
  apply Hframe. simpl. tauto.
Defined.

(** X9. The generated email is replaced by a successful generation and
    by nothing else: once there is one, no event takes it away. *)
Theorem generatedEmail_changes_only_by (e : event) (w : World) :
  (generatedEmail (dispatch e w) = generatedEmail w
   ∨ ∃ k data, e = GenerateSettled k (GenerateOk (Json data))
               ∧ generatedEmail (dispatch e w) = Some data)
  ∧ (generatedEmail w ≠ None → generatedEmail (dispatch e w) ≠ None).
Proof.
  assert (H : generatedEmail (dispatch e w) = generatedEmail w
              ∨ ∃ k data, e = GenerateSettled k (GenerateOk (Json data))
                          ∧ generatedEmail (dispatch e w) = Some data).
  { unfold dispatch. destruct (enabled e w); [|left; reflexivity].
    destruct e as [t|c|i v| |i| | |k r|k r|dt]; simpl handle;
      try (left; reflexivity).
    - left. unfold removeRecipient. repeat case_match; reflexivity.
    - left. unfold generateEmail. case_match; reflexivity.
    - left. unfold sendEmail. repeat case_match; simpl; congruence.
    - destruct r as [m|[m|data]|status]; try (left; reflexivity).
      right. exists k, data. split; reflexivity.
    - left. destruct r as [m|[m|sent]|status [m|detail]]; reflexivity.
    - left. unfold elapse.
      destruct (run_timers_cases
                  (filter (λ due, due ≤ clock w + dt) (timers w))
                  (set_clock_timers (clock w + dt)
                     (filter (λ due, clock w + dt < due) (timers w)) w))
        as [-> | ->]; reflexivity. }
  split; [exact H |].
  intros Hsome. destruct H as [-> | (k & data & _ & ->)];
    [exact Hsome | discriminate].
Qed.

Lemma generatedEmail_changes_only_by_witness :
  generatedEmail
    (dispatch (GenerateSettled 0 (GenerateNotOk 500))
       (setLoading true
          (fetch (PostGenerateEmail (js "p") (js "k")) scenario_world)))
  ≠ None.
Proof.
  apply (generatedEmail_changes_only_by
           (GenerateSettled 0 (GenerateNotOk 500))
           (setLoading true
              (fetch (PostGenerateEmail (js "p") (js "k")) scenario_world))).
  simpl. discriminate.
Defined.

(** ** The handlers, completed *)

Lemma not_white_space_non_blank (s : jsstring) :
  Exists (λ c, is_white_space c = false) s ↔ non_blank s.
Proof.
  unfold non_blank. rewrite trim_nil_iff. split.
  - intros Hex Hall. apply Exists_exists in Hex as (c & Hin & Hc).
    rewrite Forall_forall in Hall. specialize (Hall c Hin). congruence.
  - intros Hn. induction s as [|c s IH].
    + destruct Hn. constructor.
    + destruct (is_white_space c) eqn:Hc.
      * apply Exists_cons_tl, IH. intros Hall. apply Hn.
        constructor; assumption.
      * apply Exists_cons_hd. exact Hc.
Qed.

(** X10. [generateEmail] posts a request exactly when the prompt and the
    key each hold a code unit that is not white space; the request then
    carries both fields as typed, untrimmed, and the flag is raised. *)
Theorem generateEmail_posts_iff (w : World) :
  (Exists (λ c, is_white_space c = false) (prompt (formData w))
   ∧ Exists (λ c, is_white_space c = false) (groqApiKey (formData w)))
  ↔ fetched (generateEmail w)
    = fetched w ++ [PostGenerateEmail (prompt (formData w))
                      (groqApiKey (formData w))]
    ∧ loading (generateEmail w) = true.
Proof.
  rewrite !not_white_space_non_blank. split.
  - intros [Hp Hk]. rewrite generateEmail_valid_input by assumption.
    split; reflexivity.
  - intros [Hf _].
    destruct (fetched_generateEmail w) as [Hsame | (Hp & Hk & _)];
      [|split; assumption].
    rewrite Hsame in Hf. apply (f_equal length) in Hf.
    rewrite length_app in Hf. simpl in Hf. lia.
Qed.

Lemma generateEmail_posts_iff_witness :
  fetched (generateEmail ready_world)
  = [PostGenerateEmail (js "Follow up on invoice") (js "k1")]
  ∧ loading (generateEmail ready_world) = true.
Proof.
  apply (generateEmail_posts_iff ready_world).
  split; [apply Exists_cons_hd | apply Exists_cons_hd]; reflexivity.
Defined.

Lemma or_else_non_empty (a b : jsstring) : b ≠ [] → or_else a b ≠ [].
Proof. intros Hb. unfold or_else. destruct a; simpl; congruence. Qed.

(** X11. However the delivery call settles, the continuation raises
    exactly one notification with a non-empty message, of kind success
    only for a success response whose body parsed; it clears the flag
    and leaves the form, the generated email, the stage and the request
    log as they were. *)
Theorem sendEmail_resume_frame (r : send_response) (w : World) :
  let w' := sendEmail_resume r w in
  formData w' = formData w
  ∧ generatedEmail w' = generatedEmail w
  ∧ activeTab w' = activeTab w
  ∧ fetched w' = fetched w
  ∧ loading w' = false
  ∧ timers w' = timers w ++ [clock w + 5000]
  ∧ ∃ m, m ≠ []
         ∧ notification w'
           = Some (mkNotification m
                     match r with
                     | SendOk (Json _) => success
                     | _ => error
                     end).
Proof.
  assert (Hfallback : js "Failed to send email" ≠ []) by discriminate.
  destruct r as [m|[m|sent]|status [m|[d|]]]; simpl;
    repeat (split; [reflexivity |]).
  - exists (or_else m (js "Failed to send email")).
    split; [apply or_else_non_empty, Hfallback | reflexivity].
  - exists (or_else m (js "Failed to send email")).
    split; [apply or_else_non_empty, Hfallback | reflexivity].
  - eexists. split; [|reflexivity]. discriminate.
  - exists (or_else m (js "Failed to send email")).
    split; [apply or_else_non_empty, Hfallback | reflexivity].
  - eexists. split; [|reflexivity].
    apply or_else_non_empty, Hfallback.
  - eexists. split; [|reflexivity]. discriminate.
Qed.

(** X12. The flag never sticks: in the running component it is set only
    while exactly one request is pending, and however that request
    settles, the flag is cleared and nothing is left pending. *)
Theorem loading_only_while_pending (w : World) :
  reachable w → loading w = true →
  ∃ req, awaiting w = [req]
         ∧ match req with
           | PostGenerateEmail _ _ =>
               ∀ r, loading (dispatch (GenerateSettled 0 r) w) = false
                    ∧ awaiting (dispatch (GenerateSettled 0 r) w) = []
           | PostSendEmailSmtp _ _ _ _ _ _ _ =>
               ∀ r, loading (dispatch (SendSettled 0 r) w) = false
                    ∧ awaiting (dispatch (SendSettled 0 r) w) = []
           end.
Proof.
  intros Hr Hl.
  destruct (reachable_in_flight w Hr) as [[_ Hlen] | [Hf _]];
    [|congruence].
  destruct (awaiting w) as [|req [|req' l]] eqn:Ha; simpl in Hlen;
    try lia.
  exists req. split; [reflexivity |].
  destruct req; intros r.
  - assert (Hen : enabled (GenerateSettled 0 r) w = true)
      by (simpl; rewrite Ha; reflexivity).
    unfold dispatch. rewrite Hen. simpl handle.
    destruct (in_flight_generateEmail_resume r (settle 0 w)) as [-> ->].
    simpl. rewrite Ha. split; reflexivity.
  - assert (Hen : enabled (SendSettled 0 r) w = true)
      by (simpl; rewrite Ha; reflexivity).
    unfold dispatch. rewrite Hen. simpl handle.
    destruct (in_flight_sendEmail_resume r (settle 0 w)) as [-> ->].
    simpl. rewrite Ha. split; reflexivity.
Qed.

Lemma loading_only_while_pending_witness :
  ∃ req, awaiting (dispatch ClickGenerate ready_world) = [req].
Proof.
  destruct (loading_only_while_pending (dispatch ClickGenerate ready_world))
    as (req & Hreq & _).
  - apply reachable_dispatch, reachable_ready_world.
  - reflexivity.
  - exists req. exact Hreq.
Defined.

(** ** The notification timers *)

Lemma run_timers_unfold (due : list nat) (w : World) :
  run_timers due w
  = match due with [] => w | _ :: _ => setNotification None w end.
Proof.
  destruct due as [|d due]; [reflexivity |]. simpl.
  destruct (run_timers_cases due (setNotification None w)) as [-> | ->];
    reflexivity.
Qed.

Lemma timers_pending_same (w w' : World) :
  clock w' = clock w → timers w' = timers w →
  notification w' = notification w →
  timers_pending w → timers_pending w'.
Proof.
  unfold timers_pending. intros -> -> ->. tauto.
Qed.

Lemma timers_pending_raise (w w' : World) :
  clock w' = clock w → timers w' = timers w ++ [clock w + 5000] →
  timers_pending w → timers_pending w'.
Proof.
  unfold timers_pending. intros -> -> [Hall _]. split.
  - apply Forall_app. split; [exact Hall |].
    constructor; [lia | constructor].
  - intros _ Hnil. apply app_eq_nil in Hnil as [_ Hnil]. discriminate Hnil.
Qed.

Lemma timers_pending_elapse (dt : nat) (w : World) :
  timers_pending w → timers_pending (elapse dt w).
Proof.
  intros [Hall Hvis]. unfold elapse. rewrite run_timers_unfold.
  destruct (filter (λ due, due ≤ clock w + dt) (timers w)) as [|d l] eqn:Hdue.
  - split; simpl.
    + apply list.Forall_forall. intros due Hin.
      apply list_elem_of_filter in Hin as [Hlt Hin].
      rewrite list.Forall_forall in Hall. specialize (Hall due Hin). lia.
    + intros Hn Hnil. specialize (Hvis Hn).
      destruct (timers w) as [|x ts] eqn:Hts; [congruence |].
      assert (Hx : ¬ x ≤ clock w + dt).
      { intros Hle.
        apply (filter_nil_not_elem_of _ _ x Hdue Hle). left. }
      rewrite filter_cons_True in Hnil by lia. discriminate Hnil.
  - split; simpl.
    + apply list.Forall_forall. intros due Hin.
      apply list_elem_of_filter in Hin as [Hlt Hin].
      rewrite list.Forall_forall in Hall. specialize (Hall due Hin). lia.
    + congruence.
Qed.

Lemma timers_pending_dispatch (e : event) (w : World) :
  timers_pending w → timers_pending (dispatch e w).
Proof.
  intros Hw. unfold dispatch. destruct (enabled e w); [|exact Hw].
  destruct e as [t|c|i v| |i| | |k r|k r|dt]; simpl handle;
    try (apply (timers_pending_same w); [reflexivity.. | exact Hw]).
  - unfold removeRecipient. repeat case_match;
      (apply (timers_pending_same w); [reflexivity.. | exact Hw]).
  - unfold generateEmail. case_match.
    + apply (timers_pending_raise w); [reflexivity.. | exact Hw].
    + apply (timers_pending_same w); [reflexivity.. | exact Hw].
  - unfold sendEmail. repeat case_match;
      first [ apply (timers_pending_same w); [reflexivity.. | exact Hw]
            | apply (timers_pending_raise w); [reflexivity.. | exact Hw] ].
  - destruct r as [m|[m|data]|status];
      (apply (timers_pending_raise w); [reflexivity.. | exact Hw]).
  - destruct r as [m|[m|sent]|status [m|detail]];
      (apply (timers_pending_raise w); [reflexivity.. | exact Hw]).
  - apply timers_pending_elapse, Hw.
Qed.

Lemma reachable_timers_pending (w : World) :
  reachable w → timers_pending w.
Proof.
  induction 1 as [|e w Hr IH].
  - split; [constructor | intros H; destruct H; reflexivity].
  - apply timers_pending_dispatch, IH.
Qed.

(** X13. No notification outlives five seconds: in the running
    component, once 5000 ms or more pass without another event the
    notification is gone, and a visible notification always has a timer
    pending that is due within those five seconds. *)
Theorem notification_gone_after_five_seconds (w : World) (dt : nat) :
  reachable w →
  (notification w ≠ None →
   ∃ due, due ∈ timers w ∧ clock w < due ≤ clock w + 5000)
  ∧ (5000 ≤ dt → notification (elapse dt w) = None).
Proof.
  intros Hr. destruct (reachable_timers_pending w Hr) as [Hall Hvis].
  split.
  - intros Hn. specialize (Hvis Hn).
    destruct (timers w) as [|x ts]; [congruence |].
    exists x. split; [left |]. inversion Hall; assumption.
  - intros Hdt. unfold elapse. rewrite run_timers_unfold.
    destruct (timers w) as [|x ts] eqn:Hts.
    + simpl. destruct (notification w) eqn:Hn; [|reflexivity].
      exfalso. apply Hvis; congruence.
    + inversion Hall as [|? ? Hx _]; subst.
      rewrite (filter_cons_True (λ due, due ≤ clock w + dt)) by lia.
      reflexivity.
Qed.

Lemma notification_gone_after_five_seconds_witness :
  notification (elapse 5000 (dispatch ClickGenerate initialWorld)) = None.
Proof.
  destruct (notification_gone_after_five_seconds
              (dispatch ClickGenerate initialWorld) 5000) as [_ Hgone].
  - apply reachable_dispatch, reachable_initial.
  - apply Hgone. lia.
Defined.

(** ** The earlier component *)

Lemma prototype_array_every_strings (ss : list jsstring) :
  ∃ b, Prototype.array_every Prototype.blank_callback
         (dense (VString <$> ss)) = Normal b.
Proof.
  induction ss as [|s ss [b IH]]; simpl.
  - exists true. reflexivity.
  - destruct (trim s); simpl.
    + exists b. exact IH.
    + exists false. reflexivity.
Qed.

Lemma prototype_renders (w : Prototype.World) :
  all_strings (Prototype.recipients w) → Prototype.renders w = true.
Proof.
  intros Hs. unfold Prototype.renders, Prototype.send_disabled.
  destruct (Prototype.isSending w); [reflexivity |].
  destruct (negb (truthy (trim (Prototype.generatedEmail w))));
    [reflexivity |].
  destruct (all_strings_strings _ Hs) as [ss ->].
  destruct (prototype_array_every_strings ss) as [b ->]. reflexivity.
Qed.

Lemma prototype_recipients_generateEmail_resume
    (r : Prototype.generate_response) (w : Prototype.World) :
  Prototype.recipients (Prototype.generateEmail_resume r w)
  = Prototype.recipients w.
Proof. destruct r; reflexivity. Qed.

Lemma prototype_recipients_sendEmail_resume
    (r : Prototype.send_response) (w : Prototype.World) :
  Prototype.recipients (Prototype.sendEmail_resume r w)
  = Prototype.recipients w.
Proof. destruct r; reflexivity. Qed.

Lemma prototype_recipients_dispatch (e : Prototype.event)
    (w : Prototype.World) :
  all_strings (Prototype.recipients w) →
  all_strings (Prototype.recipients (Prototype.dispatch e w))
  ∧ length (Prototype.recipients w)
    ≤ length (Prototype.recipients (Prototype.dispatch e w)).
Proof.
  intros Hs. unfold Prototype.dispatch.
  destruct (Prototype.enabled e w) eqn:Hen; [|split; [assumption | lia]].
  destruct e as [v| |i v| |v|v| |k r|k r]; simpl Prototype.handle;
    try (split; [assumption | simpl; lia]).
  - simpl in Hen. apply andb_prop in Hen as [_ Hi].
    apply is_element_lt in Hi. simpl.
    rewrite all_strings_spread by assumption.
    unfold array_set. rewrite decide_True by assumption. split.
    + apply Forall_insert; [assumption | eexists; reflexivity].
    + rewrite length_insert. lia.
  - simpl. rewrite all_strings_spread by assumption. split.
    + apply Forall_app. split; [assumption |].
      repeat constructor. eexists; reflexivity.
    + rewrite length_app. simpl. lia.
  - rewrite prototype_recipients_generateEmail_resume. simpl.
    split; [assumption | lia].
  - rewrite prototype_recipients_sendEmail_resume. simpl.
    split; [assumption | lia].
Qed.

Lemma prototype_reachable_strings (w : Prototype.World) :
  Prototype.reachable w → all_strings (Prototype.recipients w).
Proof.
  induction 1 as [|e w Hr IH].
  - repeat constructor. exists []. reflexivity.
  - apply prototype_recipients_dispatch, IH.
Qed.

(** X14. The earlier component has no way to drop a recipient row: its
    recipient list is always a list of strings with at least one slot,
    and no event makes it shorter. *)
Theorem prototype_recipients_never_shrink
    (w : Prototype.World) (e : Prototype.event) :
  Prototype.reachable w →
  all_strings (Prototype.recipients w)
  ∧ 1 ≤ length (Prototype.recipients w)
  ∧ length (Prototype.recipients w)
    ≤ length (Prototype.recipients (Prototype.dispatch e w)).
Proof.
  intros Hr. split; [apply prototype_reachable_strings, Hr |].
  split; [|apply prototype_recipients_dispatch,
            prototype_reachable_strings, Hr].
  clear e. induction Hr as [|e w Hr IH]; [simpl; lia |].
  pose proof (prototype_recipients_dispatch e w
                (prototype_reachable_strings w Hr)) as [_ Hle].
  lia.
Qed.

Lemma prototype_recipients_never_shrink_witness :
  1 ≤ length (Prototype.recipients
                (Prototype.dispatch Prototype.AddRecipientField
                   Prototype.initialWorld)).
Proof.
  apply (prototype_recipients_never_shrink
           (Prototype.dispatch Prototype.AddRecipientField
              Prototype.initialWorld)
           Prototype.ClickGenerate).
  apply Prototype.reachable_dispatch, Prototype.reachable_initial.
Defined.

(** When [every] answers false some element is a non-blank string. *)
Lemma prototype_array_every_false (a : jsarray) :
  Prototype.array_every Prototype.blank_callback a = Normal false →
  Exists (λ o, ∃ s, o = Some (VString s) ∧ non_blank s) a.
Proof.
  induction a as [|[[|s]|] a IH]; simpl.
  - discriminate.
  - discriminate.
  - destruct (trim s) eqn:Hs; simpl.
    + intros H. apply Exists_cons_tl, IH, H.
    + intros _. apply Exists_cons_hd. exists s.
      split; [reflexivity |]. unfold non_blank. congruence.
  - intros H. apply Exists_cons_tl, IH, H.
Qed.

Lemma prototype_fetched_dispatch_other (e : Prototype.event)
    (w : Prototype.World) :
  e ≠ Prototype.ClickGenerate → e ≠ Prototype.ClickSend →
  Prototype.fetched (Prototype.dispatch e w) = Prototype.fetched w.
Proof.
  intros Hg Hs. unfold Prototype.dispatch.
  destruct (Prototype.enabled e w); [|reflexivity].
  destruct e as [v| |i v| |v|v| |k [m|m]|k [m|m]]; try congruence;
    reflexivity.
Qed.

(** X15. In the earlier component a click on Send, when the button is
    enabled, posts the whole recipient list as it stands, blank rows
    included, with no filtering; the button's guard makes sure the body
    is non-blank after trimming and some recipient is a non-blank string,
    so every send request ever issued has both. *)
Theorem prototype_send_requests (w : Prototype.World) :
  (Prototype.enabled Prototype.ClickSend w = true →
   Prototype.fetched (Prototype.dispatch Prototype.ClickSend w)
   = Prototype.fetched w
       ++ [Prototype.PostSendEmail (Prototype.recipients w)
             (Prototype.subject w) (Prototype.generatedEmail w)]
   ∧ non_blank (Prototype.generatedEmail w)
   ∧ Exists (λ o, ∃ s, o = Some (VString s) ∧ non_blank s)
       (Prototype.recipients w))
  ∧ (Prototype.reachable w →
     Forall Prototype.send_request_usable (Prototype.fetched w)).
Proof.
  assert (Hclick : ∀ w,
    Prototype.enabled Prototype.ClickSend w = true →
    non_blank (Prototype.generatedEmail w)
    ∧ Exists (λ o, ∃ s, o = Some (VString s) ∧ non_blank s)
        (Prototype.recipients w)).
  { clear w. intros w. simpl. unfold Prototype.send_disabled.
    destruct (Prototype.isSending w); [discriminate |].
    unfold non_blank.
    destruct (trim (Prototype.generatedEmail w)); simpl; [discriminate |].
    destruct (Prototype.array_every Prototype.blank_callback
                (Prototype.recipients w)) as [[|]|] eqn:Hev;
      try discriminate.
    intros _. split; [congruence |].
    apply prototype_array_every_false, Hev. }
  split.
  - intros Hen. destruct (Hclick w Hen) as [Hb Hr].
    unfold Prototype.dispatch. rewrite Hen. repeat split; assumption.
  - induction 1 as [|e w Hr IH]; [constructor |].
    destruct e as [v| |i v| |v|v| |k r|k r];
      try (rewrite prototype_fetched_dispatch_other by discriminate;
           exact IH).
    + unfold Prototype.dispatch.
      destruct (Prototype.enabled Prototype.ClickGenerate w); [|exact IH].
      simpl. apply Forall_app. split; [exact IH |].
      repeat constructor.
    + unfold Prototype.dispatch.
      destruct (Prototype.enabled Prototype.ClickSend w) eqn:Hen;
        [|exact IH].
      simpl Prototype.handle. simpl Prototype.fetched.
      apply Forall_app. split; [exact IH |].
      constructor; [|constructor]. apply Hclick, Hen.
Qed.

Lemma prototype_send_requests_witness :
  Prototype.fetched
    (Prototype.dispatch Prototype.ClickSend prototype_scenario_world)
  = [Prototype.PostSendEmail
       [Some (VString (js "a@x.com")); Some (VString [])] [] (js "Hi")].
Proof.
  destruct (prototype_send_requests prototype_scenario_world)
    as [Hclick _].
  destruct (Hclick eq_refl) as [Hsent _]. exact Hsent.
Defined.

Lemma prototype_filter_send_delete (l : list Prototype.request) (k : nat)
    (x : Prototype.request) :
  l !! k = Some x →
  (Prototype.is_send x →
   S (length (filter Prototype.is_send (delete k l)))
   = length (filter Prototype.is_send l))
  ∧ (¬ Prototype.is_send x →
     filter Prototype.is_send (delete k l) = filter Prototype.is_send l).
Proof.
  revert k. induction l as [|y l IH]; intros [|k] Hk; simpl in Hk;
    try discriminate.
  - injection Hk as ->. simpl. split; intros Hx.
    + rewrite filter_cons_True by assumption. reflexivity.
    + rewrite filter_cons_False by assumption. reflexivity.
  - destruct (IH k Hk) as [IH1 IH2]. simpl.
    destruct (decide (Prototype.is_send y)) as [Hy|Hy].
    + rewrite !filter_cons_True by assumption. simpl. split; intros Hx.
      * f_equal. apply IH1, Hx.
      * f_equal. apply IH2, Hx.
    + rewrite !filter_cons_False by assumption. split; assumption.
Qed.

Lemma prototype_reachable_send_consistent (w : Prototype.World) :
  Prototype.reachable w → prototype_send_consistent w.
Proof.
  induction 1 as [|e w Hr IH].
  - right. split; reflexivity.
  - unfold Prototype.dispatch.
    destruct (Prototype.enabled e w) eqn:Hen; [|exact IH].
    destruct e as [v| |i v| |v|v| |k r|k r]; simpl Prototype.handle;
      try exact IH.
    + unfold prototype_send_consistent. simpl.
      rewrite list.filter_app, filter_cons_False, filter_nil, app_nil_r
        by (simpl; tauto).
      exact IH.
    + simpl in Hen. unfold Prototype.send_disabled in Hen.
      destruct (Prototype.isSending w) eqn:Hs; [discriminate |].
      destruct IH as [[Ht _] | [_ Ha]]; [congruence |].
      left. simpl. split; [reflexivity |].
      rewrite list.filter_app, Ha, filter_cons_True by exact I.
      reflexivity.
    + simpl in Hen.
      destruct (Prototype.awaiting w !! k) as [[p|to sub body]|] eqn:Hk;
        try discriminate.
      destruct (prototype_filter_send_delete _ _ _ Hk) as [_ Hsame].
      unfold prototype_send_consistent in *.
      destruct r; simpl; rewrite Hsame by (simpl; tauto); exact IH.
    + simpl in Hen.
      destruct (Prototype.awaiting w !! k) as [[p|to sub body]|] eqn:Hk;
        try discriminate.
      destruct (prototype_filter_send_delete _ _ _ Hk) as [Hless _].
      specialize (Hless I).
      destruct IH as [[_ Hone] | [_ Hnone]].
      * right. destruct r; simpl; (split; [reflexivity |]);
          apply length_zero_iff_nil; lia.
      * rewrite Hnone in Hless. simpl in Hless. lia.
Qed.

(** X16. In the earlier component at most one send request is pending
    at any time, the flag [isSending] is set exactly while one is, and a
    click on Send while it is set does nothing. *)
Theorem prototype_single_send (w : Prototype.World) :
  Prototype.reachable w →
  length (filter Prototype.is_send (Prototype.awaiting w)) ≤ 1
  ∧ (Prototype.isSending w = true
     ↔ filter Prototype.is_send (Prototype.awaiting w) ≠ [])
  ∧ (Prototype.isSending w = true →
     Prototype.dispatch Prototype.ClickSend w = w).
Proof.
  intros Hr.
  destruct (prototype_reachable_send_consistent w Hr)
    as [[Hs Hone] | [Hs Hnone]].
  - split; [lia |]. split.
    + split; [|intros _; exact Hs].
      intros _ Hnil. rewrite Hnil in Hone. discriminate Hone.
    + intros _. unfold Prototype.dispatch. simpl.
      unfold Prototype.send_disabled. rewrite Hs. reflexivity.
  - split; [rewrite Hnone; simpl; lia |]. split.
    + split; [congruence | intros Hne; contradiction].
    + congruence.
Qed.

Lemma prototype_single_send_witness :
  Prototype.dispatch Prototype.ClickSend
    (Prototype.dispatch Prototype.ClickSend
       (Prototype.dispatch (Prototype.RecipientChange 0 (js "a@x.com"))
          (Prototype.dispatch (Prototype.ChangeGeneratedEmail (js "Hi"))
             Prototype.initialWorld)))
  = Prototype.dispatch Prototype.ClickSend
      (Prototype.dispatch (Prototype.RecipientChange 0 (js "a@x.com"))
         (Prototype.dispatch (Prototype.ChangeGeneratedEmail (js "Hi"))
            Prototype.initialWorld)).
Proof.
  apply (prototype_single_send
           (Prototype.dispatch Prototype.ClickSend
              (Prototype.dispatch
                 (Prototype.RecipientChange 0 (js "a@x.com"))
                 (Prototype.dispatch
                    (Prototype.ChangeGeneratedEmail (js "Hi"))
                    Prototype.initialWorld)))).
  - repeat apply Prototype.reachable_dispatch.
    apply Prototype.reachable_initial.
  - reflexivity.
Defined.

(** X17. The earlier component guards nothing on the generate path: a
    click on Generate always posts the prompt as it stands, blank or not
    and whatever is pending, so any number of generation requests can be
    pending at once. *)
Theorem prototype_generate_unguarded :
  (∀ w, Prototype.reachable w →
        Prototype.dispatch Prototype.ClickGenerate w
        = Prototype.post
            (Prototype.PostGenerateEmail (Prototype.prompt w)) w)
  ∧ ∀ n, ∃ w, Prototype.reachable w
              ∧ Prototype.awaiting w
                = replicate n (Prototype.PostGenerateEmail [])
              ∧ Prototype.prompt w = [].
Proof.
  assert (Hclick : ∀ w, Prototype.reachable w →
            Prototype.dispatch Prototype.ClickGenerate w
            = Prototype.post
                (Prototype.PostGenerateEmail (Prototype.prompt w)) w).
  { intros w Hr. unfold Prototype.dispatch. simpl Prototype.enabled.
    rewrite prototype_renders
      by (apply prototype_reachable_strings, Hr).
    reflexivity. }
  split; [exact Hclick |].
  induction n as [|n (w & Hr & Ha & Hp)].
  - exists Prototype.initialWorld.
    repeat split. apply Prototype.reachable_initial.
  - exists (Prototype.dispatch Prototype.ClickGenerate w).
    split; [apply Prototype.reachable_dispatch, Hr |].
    rewrite (Hclick w Hr). simpl. rewrite Ha, Hp. split; [|reflexivity].
    clear. induction n as [|n IH]; [reflexivity |].
    simpl. f_equal. exact IH.
Qed.

Lemma prototype_generate_unguarded_witness :
  Prototype.awaiting
    (Prototype.dispatch Prototype.ClickGenerate
       (Prototype.dispatch Prototype.ClickGenerate Prototype.initialWorld))
  = [Prototype.PostGenerateEmail []; Prototype.PostGenerateEmail []].
Proof.
  destruct prototype_generate_unguarded as [Hclick _].
  rewrite Hclick
    by (apply Prototype.reachable_dispatch, Prototype.reachable_initial).
  reflexivity.
Defined.

(** ** Clicks always answer *)

(** X18. In the running component an enabled click on Generate or on
    Send is never silently dropped: it either raises an error
    notification and sends nothing, or sets the flag and sends exactly
    one request. The silent return of [sendEmail] cannot be reached from
    the Send button, which is only rendered beside a generated email. *)
Theorem click_always_answers (w : World) (e : event) :
  reachable w →
  e = ClickGenerate ∨ e = ClickSend →
  enabled e w = true →
  (∃ m, dispatch e w = showNotification m error w)
  ∨ (∃ r, dispatch e w = fetch r (setLoading true w)).
Proof.
  intros Hr He Hen. unfold dispatch. rewrite Hen.
  destruct He as [-> | ->]; simpl handle.
  - unfold generateEmail. case_match.
    + left. eexists. reflexivity.
    + right. eexists. reflexivity.
  - simpl in Hen. apply andb_prop in Hen as [Hshown _].
    unfold send_form_shown in Hshown. unfold sendEmail.
    destruct (generatedEmail w) as [email|];
      [|destruct (activeTab w); discriminate].
    destruct (reachable_recipients w Hr) as [Hs _].
    destruct (all_strings_strings _ Hs) as [ss ->].
    rewrite array_filter_trim_strings.
    repeat case_match;
      first [ left; eexists; reflexivity | right; eexists; reflexivity ].
Qed.

Lemma click_always_answers_witness :
  (∃ m, dispatch ClickGenerate initialWorld
        = showNotification m error initialWorld)
  ∨ (∃ r, dispatch ClickGenerate initialWorld
          = fetch r (setLoading true initialWorld)).
Proof.
  apply (click_always_answers initialWorld ClickGenerate).
  - apply reachable_initial.
  - left. reflexivity.
  - reflexivity.
Defined.
